(** * Little Lemon: the menu store and the Home screen controller

    A shallow embedding of [database.js] (the SQLite-backed menu store) and of
    the data-loading logic of [screens/Home.js], followed by the properties
    proved about them.

    Conventions.
    - A JavaScript string / SQLite TEXT value is a sequence of Unicode code
      points ([text]).  SQLite's BINARY collation (memcmp on UTF-8) orders
      such sequences lexicographically by code point.
    - An [await]ed call is a sequential step; a rejected promise / thrown
      [Error] is the [Err] result carrying the error's [message].
    - SQL statements are given the meaning SQLite gives them on the single
      table [menuitems]: a scan visits rows in rowid order, ORDER BY is a
      stable sort, LOWER and LIKE fold the ASCII letters only.  Texts are
      taken not to contain U+0000, where SQLite's string functions stop,
      and rowids are signed 64-bit integers.
    - A plain JavaScript object used as a map is its list of own
      properties in creation order, together with what it inherits from
      [Object.prototype] and the enumeration order of [Object.keys]. *)

From Stdlib Require Import List ZArith NArith QArith Bool String Ascii Lia.
From Stdlib Require Import Permutation Sorted.
Import ListNotations.
Close Scope Q_scope.

(* ===================================================================== *)
(** ** Text: JavaScript strings and SQLite TEXT *)
(* ===================================================================== *)

Module Text.

Local Open Scope N_scope.

Definition text := list N.

(** ASCII literals, for readable examples. *)
Definition lit (s : string) : text := map N_of_ascii (list_ascii_of_string s).

Fixpoint eqb (a b : text) : bool :=
  match a, b with
  | [], [] => true
  | x :: a', y :: b' => (x =? y) && eqb a' b'
  | _, _ => false
  end.

Definition mem (k : text) (l : list text) : bool := existsb (eqb k) l.

(** ECMAScript WhiteSpace and LineTerminator code points: what
    [String.prototype.trim] strips. *)
Definition isWhiteSpace (c : N) : bool :=
  ((9 <=? c) && (c <=? 13)) || (c =? 32) || (c =? 160) || (c =? 5760)
  || ((8192 <=? c) && (c <=? 8202)) || (c =? 8232) || (c =? 8233)
  || (c =? 8239) || (c =? 8287) || (c =? 12288) || (c =? 65279).

Fixpoint trimStart (s : text) : text :=
  match s with
  | [] => []
  | c :: s' => if isWhiteSpace c then trimStart s' else s
  end.

Fixpoint trimEnd (s : text) : text :=
  match s with
  | [] => []
  | c :: s' =>
      match trimEnd s' with
      | [] => if isWhiteSpace c then [] else [c]
      | r => c :: r
      end
  end.

(** [query.trim()] *)
Definition trim (s : text) : text := trimEnd (trimStart s).

(** A JavaScript string is falsy exactly when it is empty. *)
Definition isEmpty (s : text) : bool :=
  match s with [] => true | _ => false end.

(** SQLite's built-in [LOWER()]: folds the 26 ASCII capitals only. *)
Definition lowerChar (c : N) : N :=
  if (65 <=? c) && (c <=? 90) then c + 32 else c.

Definition LOWER (s : text) : text := map lowerChar s.

(** BINARY collation. *)
Fixpoint compare (a b : text) : comparison :=
  match a, b with
  | [], [] => Eq
  | [], _ :: _ => Lt
  | _ :: _, [] => Gt
  | x :: a', y :: b' =>
      match x ?= y with
      | Eq => compare a' b'
      | c => c
      end
  end.

Definition leb (a b : text) : bool :=
  match compare a b with Gt => false | _ => true end.

(** SQLite's [LIKE] without an ESCAPE clause: [%] (37) matches any run of
    characters, [_] (95) matches exactly one character, any other pattern
    character matches itself up to ASCII case. *)
Definition percent : N := 37.
Definition underscore : N := 95.

Fixpoint like (pattern s : text) : bool :=
  match pattern with
  | [] => isEmpty s
  | c :: pattern' =>
      if c =? percent then
        (fix any_run (s : text) : bool :=
           like pattern' s
           || match s with
              | [] => false
              | _ :: s' => any_run s'
              end) s
      else
        match s with
        | [] => false
        | d :: s' =>
            ((c =? underscore) || (lowerChar c =? lowerChar d)) && like pattern' s'
        end
  end.

End Text.

Import Text.

(* ===================================================================== *)
(** ** database.js *)
(* ===================================================================== *)

(** The value of an awaited promise: fulfilled, or rejected with an [Error]
    whose [message] is carried. *)
Inductive result (A : Type) : Type :=
| Ok (a : A)
| Err (message : string).
Arguments Ok {A} a.
Arguments Err {A} message.

(** A menu item object: an element of the remote [menu] array, or a row
    object returned by [getAllAsync].  [id] is [None] when the object has no
    [id] property (bound as NULL on insert); rows read back from the table
    always carry [Some rowid].  [price] is the REAL column; it is carried
    verbatim and never inspected, a rational stands in for the double. *)
Record MenuItem : Type := {
  id : option Z;
  name : text;
  price : Q;
  description : text;
  image : text;
  category : text
}.

(** The database [little_lemon]: the table [menuitems] when it exists, its
    rows in rowid order (the order of a table scan), and the AUTOINCREMENT
    counter SQLite keeps for it in [sqlite_sequence] (the largest rowid ever
    used; survives DELETE). *)
Record Store : Type := {
  menuitems : option (list MenuItem);
  sqlite_sequence : Z
}.

Module Sql.

Local Open Scope string_scope.

Definition no_such_table : string := "no such table: menuitems".
Definition already_exists : string := "table menuitems already exists".
Definition unique_failed : string := "UNIQUE constraint failed: menuitems.id".
Definition io_error : string := "disk I/O error".
Definition datatype_mismatch : string := "datatype mismatch".
Definition database_full : string := "database or disk is full".

(** [CREATE TABLE [IF NOT EXISTS] menuitems (...)] *)
Definition create_table (if_not_exists : bool) (db : Store) : result Store :=
  match menuitems db with
  | Some _ => if if_not_exists then Ok db else Err already_exists
  | None => Ok {| menuitems := Some []; sqlite_sequence := sqlite_sequence db |}
  end.

(** Stable sort: what [ORDER BY] does to the rows of a scan. *)
Fixpoint insert_by (le : MenuItem -> MenuItem -> bool) (x : MenuItem)
    (l : list MenuItem) : list MenuItem :=
  match l with
  | [] => [x]
  | y :: l' => if le x y then x :: l else y :: insert_by le x l'
  end.

Definition order_by (le : MenuItem -> MenuItem -> bool) (l : list MenuItem)
  : list MenuItem :=
  fold_right (insert_by le) [] l.

(** [ORDER BY category, name] *)
Definition by_category_name (x y : MenuItem) : bool :=
  match Text.compare (category x) (category y) with
  | Lt => true
  | Gt => false
  | Eq => Text.leb (name x) (name y)
  end.

(** [ORDER BY name] *)
Definition by_name (x y : MenuItem) : bool := Text.leb (name x) (name y).

(** [SELECT * FROM menuitems [WHERE w] [ORDER BY o]] *)
Definition select (where_ : MenuItem -> bool)
    (order : option (MenuItem -> MenuItem -> bool)) (db : Store)
  : result (list MenuItem) :=
  match menuitems db with
  | None => Err no_such_table
  | Some rows =>
      let hits := filter where_ rows in
      Ok (match order with Some le => order_by le hits | None => hits end)
  end.

(** [DELETE FROM menuitems] *)
Definition delete_all (db : Store) : result Store :=
  match menuitems db with
  | None => Err no_such_table
  | Some _ => Ok {| menuitems := Some []; sqlite_sequence := sqlite_sequence db |}
  end.

Definition rowid (r : MenuItem) : Z :=
  match id r with Some k => k | None => 0%Z end.

Definition has_rowid (k : Z) (rows : list MenuItem) : bool :=
  existsb (fun r => match id r with Some k' => (k =? k')%Z | None => false end) rows.

Definition max_rowid (rows : list MenuItem) : Z :=
  fold_right (fun r m => Z.max (rowid r) m) 0%Z rows.

(** Rows are kept in rowid order. *)
Fixpoint place (r : MenuItem) (rows : list MenuItem) : list MenuItem :=
  match rows with
  | [] => [r]
  | r' :: rows' =>
      if (rowid r <? rowid r')%Z then r :: rows else r' :: place r rows'
  end.

Definition with_id (k : Z) (item : MenuItem) : MenuItem :=
  {| id := Some k; name := name item; price := price item;
     description := description item; image := image item;
     category := category item |}.

(** The rowids SQLite can hold. *)
Definition MAX_ROWID : Z := 9223372036854775807.
Definition MIN_ROWID : Z := -9223372036854775808.

Definition is_int64 (k : Z) : bool := (MIN_ROWID <=? k)%Z && (k <=? MAX_ROWID)%Z.

(** [INSERT INTO menuitems (id, name, price, description, image, category)
     VALUES (?, ?, ?, ?, ?, ?)] on an INTEGER PRIMARY KEY AUTOINCREMENT
    column: a supplied id is used as the rowid and must be a 64-bit integer
    no row has yet; a NULL id gets one more than the largest rowid ever
    used, and is refused once that is the largest rowid there is. *)
Definition insert (item : MenuItem) (db : Store) : result Store :=
  match menuitems db with
  | None => Err no_such_table
  | Some rows =>
      match id item with
      | Some k =>
          if negb (is_int64 k) then Err datatype_mismatch
          else if has_rowid k rows then Err unique_failed
          else Ok {| menuitems := Some (place (with_id k item) rows);
                     sqlite_sequence := Z.max k (sqlite_sequence db) |}
      | None =>
          let m := Z.max (sqlite_sequence db) (max_rowid rows) in
          if (MAX_ROWID <=? m)%Z then Err database_full
          else Ok {| menuitems := Some (place (with_id (m + 1)%Z item) rows);
                     sqlite_sequence := (m + 1)%Z |}
      end
  end.

End Sql.

Module Database.

Local Open Scope string_scope.

(** [export async function createTable()] *)
Definition createTable (db : Store) : result unit * Store :=
  match Sql.create_table true db with
  | Ok db' => (Ok tt, db')
  | Err m => (Err ("Failed to create table: " ++ m), db)
  end.

(** [export async function getMenuItems()] *)
Definition getMenuItems (db : Store) : result (list MenuItem) :=
  match Sql.select (fun _ => true) None db with
  | Ok rows => Ok rows
  | Err m => Err ("Failed to get menu items: " ++ m)
  end.

(** The statements of the transaction body are numbered from 0 (the DELETE;
    statement [S i] is the insert of item [i]; the COMMIT follows the last
    insert).  [fault] is the number of the statement at which the engine
    reports an I/O error, if it does. *)
Definition faulty (fault : option nat) (k : nat) : bool :=
  match fault with Some j => Nat.eqb j k | None => false end.

Definition run_statement (fault : option nat) (k : nat)
    (stmt : Store -> result Store) (db : Store) : result Store :=
  if faulty fault k then Err Sql.io_error else stmt db.

(** [for (const item of menuItems) await db.runAsync('INSERT ...', [...])] *)
Fixpoint insert_each (fault : option nat) (k : nat) (menuItems : list MenuItem)
    (db : Store) : result Store :=
  match menuItems with
  | [] => run_statement fault k Ok db (* COMMIT *)
  | item :: rest =>
      match run_statement fault k (Sql.insert item) db with
      | Ok db' => insert_each fault (S k) rest db'
      | Err m => Err m
      end
  end.

(** [db.withTransactionAsync(task)]: BEGIN, run the task, COMMIT; when the
    task (or the COMMIT) throws, ROLLBACK to the state at BEGIN and rethrow. *)
Definition withTransactionAsync (task : Store -> result Store) (db : Store)
  : result unit * Store :=
  match task db with
  | Ok db' => (Ok tt, db')
  | Err m => (Err m, db)
  end.

(** [export async function saveMenuItems(menuItems)] *)
Definition saveMenuItems (fault : option nat) (menuItems : list MenuItem)
    (db : Store) : result unit * Store :=
  match
    withTransactionAsync
      (fun db0 =>
         match run_statement fault 0 Sql.delete_all db0 with
         | Ok db1 => insert_each fault 1 menuItems db1
         | Err m => Err m
         end) db
  with
  | (Ok u, db') => (Ok u, db')
  | (Err m, db') => (Err ("Failed to save menu items: " ++ m), db')
  end.

Definition all : text := lit "all".

(** [export async function filterByCategory(category)] *)
Definition filterByCategory (category_ : text) (db : Store)
  : result (list MenuItem) :=
  match
    (if Text.eqb category_ all then
       Sql.select (fun _ => true) (Some Sql.by_category_name) db
     else
       Sql.select (fun r => Text.eqb (LOWER (category r)) (LOWER category_))
         (Some Sql.by_name) db)
  with
  | Ok rows => Ok rows
  | Err m => Err ("Failed to filter by category: " ++ m)
  end.

(** The template literal [`%${query.trim()}%`]. *)
Definition searchTerm (query : text) : text :=
  (percent :: trim query ++ [percent])%list.

(** [export async function searchMenuItems(query)] *)
Definition searchMenuItems (query : text) (db : Store)
  : result (list MenuItem) :=
  match
    (if isEmpty query || isEmpty (trim query) then
       Sql.select (fun _ => true) (Some Sql.by_category_name) db
     else
       Sql.select
         (fun r =>
            like (LOWER (searchTerm query)) (LOWER (name r))
            || like (LOWER (searchTerm query)) (LOWER (description r)))
         (Some Sql.by_category_name) db)
  with
  | Ok rows => Ok rows
  | Err m => Err ("Failed to search menu items: " ++ m)
  end.

End Database.

(* ===================================================================== *)
(** ** screens/Home.js *)
(* ===================================================================== *)

Module Js.

Local Open Scope N_scope.

(** A plain object used as a map from category to array ([const grouped =
    {}]): its own properties in creation order. *)
Definition Object_ := list (text * list MenuItem).

Fixpoint hasOwn (k : text) (o : Object_) : bool :=
  match o with
  | [] => false
  | (k', _) :: o' => Text.eqb k k' || hasOwn k o'
  end.

(** The value of own property [k]. *)
Fixpoint get (k : text) (o : Object_) : list MenuItem :=
  match o with
  | [] => []
  | (k', arr) :: o' => if Text.eqb k k' then arr else get k o'
  end.

(** [o[k].push(item)] on an own array-valued property. *)
Fixpoint push (k : text) (item : MenuItem) (o : Object_) : Object_ :=
  match o with
  | [] => []
  | (k', arr) :: o' =>
      if Text.eqb k k' then (k', arr ++ [item]) :: o'
      else (k', arr) :: push k item o'
  end.

(** [o[k] = []] for a [k] that is not yet an own property. *)
Definition define (k : text) (o : Object_) : Object_ := o ++ [(k, [])].

(** The properties every plain object inherits from [Object.prototype].
    All of them are truthy and none of them is an array. *)
Definition prototype_names : list text :=
  map lit
    ["constructor"; "__defineGetter__"; "__defineSetter__"; "hasOwnProperty";
     "__lookupGetter__"; "__lookupSetter__"; "isPrototypeOf";
     "propertyIsEnumerable"; "toString"; "valueOf"; "__proto__";
     "toLocaleString"]%string.

Definition inherited (k : text) : bool := Text.mem k prototype_names.

(** Array-index property names: the canonical decimal form of an integer
    in [0, 2^32 - 2]. *)
Fixpoint decimal (acc : N) (k : text) : option N :=
  match k with
  | [] => Some acc
  | c :: k' =>
      if (48 <=? c) && (c <=? 57) then decimal (acc * 10 + (c - 48)) k'
      else None
  end.

Definition arrayIndex (k : text) : option N :=
  match k with
  | [] => None
  | c :: k' =>
      if (c =? 48) && negb (isEmpty k') then None
      else
        match decimal 0 k with
        | Some n => if n <=? 4294967294 then Some n else None
        | None => None
        end
  end.

Definition isArrayIndex (k : text) : bool :=
  match arrayIndex k with Some _ => true | None => false end.

Definition indexValue (k : text) : N :=
  match arrayIndex k with Some n => n | None => 0 end.

Fixpoint insert_index (k : text) (l : list text) : list text :=
  match l with
  | [] => [k]
  | k' :: l' =>
      if indexValue k <=? indexValue k' then k :: l else k' :: insert_index k l'
  end.

Definition ascending_indices (l : list text) : list text :=
  fold_right insert_index [] l.

(** The order in which own string keys are enumerated: array indices in
    ascending numeric order, then the other keys in creation order. *)
Definition key_order (keys : list text) : list text :=
  ascending_indices (filter isArrayIndex keys)
  ++ filter (fun k => negb (isArrayIndex k)) keys.

(** [Object.keys(o)] *)
Definition Object_keys (o : Object_) : list text := key_order (map fst o).

End Js.

Module Home.

Local Open Scope string_scope.

(** What [response.json()] yields, as far as [initializeApp] looks at it:
    a falsy value; a truthy value whose [menu] property is missing or falsy;
    or an object with a [menu] array.  (Truthy [menu] values that are not
    arrays are not represented.) *)
Inductive ApiData : Type :=
| Falsy
| WithoutMenu
| WithMenu (menu : list MenuItem).

(** [{ title: category, data: grouped[category] }] *)
Record MenuSection : Type := {
  title : text;
  data : list MenuItem
}.

(** The component state touched by the data-loading code. *)
Record State : Type := {
  sections : list MenuSection;
  loading : bool;
  error : option string;
  isInitialized : bool
}.

(** Calls that leave the component. *)
Inductive Call : Type :=
| Fetch
| CreateTable
| GetMenuItems
| SaveMenuItems (menuItems : list MenuItem)
| FilterByCategory (category_ : text)
| SearchMenuItems (query : text).

(** Everything the code reads or writes: the database, the answer the remote
    source gives to a GET, the I/O fault (if any) awaiting the next
    transaction, the component state, and the calls made so far. *)
Record World : Type := {
  db : Store;
  remote : result ApiData;
  fault : option nat;
  state : State;
  calls : list Call
}.

Definition initialState : State :=
  {| sections := []; loading := true; error := None; isInitialized := false |}.

(** *** Async functions: state passing with exceptions *)

Definition Async (A : Type) : Type := World -> result A * World.

Definition ret {A} (a : A) : Async A := fun w => (Ok a, w).

Definition bind {A B} (c : Async A) (k : A -> Async B) : Async B :=
  fun w =>
    match c w with
    | (Ok a, w') => k a w'
    | (Err m, w') => (Err m, w')
    end.

Notation "x <- c ;; k" := (bind c (fun x => k))
  (at level 61, c at next level, right associativity).
Notation "c ;; k" := (bind c (fun _ => k))
  (at level 61, right associativity).

(** [try { body } catch (err) { handler(err.message) }] *)
Definition try_catch {A} (body : Async A) (handler : string -> Async A)
  : Async A :=
  fun w =>
    match body w with
    | (Ok a, w') => (Ok a, w')
    | (Err m, w') => handler m w'
    end.

(** [try { body } finally { fin }] *)
Definition try_finally {A} (body : Async A) (fin : Async unit) : Async A :=
  fun w =>
    match body w with
    | (r, w') =>
        match fin w' with
        | (Ok _, w'') => (r, w'')
        | (Err m, w'') => (Err m, w'')
        end
    end.

Definition record (c : Call) (w : World) : World :=
  {| db := db w; remote := remote w; fault := fault w; state := state w;
     calls := calls w ++ [c] |}.

Definition with_db (d : Store) (w : World) : World :=
  {| db := d; remote := remote w; fault := fault w; state := state w;
     calls := calls w |}.

Definition setState (f : State -> State) : Async unit :=
  fun w =>
    (Ok tt, {| db := db w; remote := remote w; fault := fault w;
               state := f (state w); calls := calls w |}).

Definition setSections (v : list MenuSection) : Async unit :=
  setState (fun s => {| sections := v; loading := loading s;
                        error := error s; isInitialized := isInitialized s |}).

Definition setLoading (v : bool) : Async unit :=
  setState (fun s => {| sections := sections s; loading := v;
                        error := error s; isInitialized := isInitialized s |}).

Definition setError (v : string) : Async unit :=
  setState (fun s => {| sections := sections s; loading := loading s;
                        error := Some v; isInitialized := isInitialized s |}).

Definition setIsInitialized (v : bool) : Async unit :=
  setState (fun s => {| sections := sections s; loading := loading s;
                        error := error s; isInitialized := v |}).

(** [err.message || fallback] *)
Definition message_or (message fallback : string) : string :=
  match message with EmptyString => fallback | _ => message end.

(** *** The imported database functions, as calls *)

Definition createTable : Async unit :=
  fun w =>
    let w := record CreateTable w in
    match Database.createTable (db w) with (r, d) => (r, with_db d w) end.

Definition getMenuItemsFromDB : Async (list MenuItem) :=
  fun w =>
    let w := record GetMenuItems w in (Database.getMenuItems (db w), w).

Definition saveMenuItems (menuItems : list MenuItem) : Async unit :=
  fun w =>
    let w := record (SaveMenuItems menuItems) w in
    match Database.saveMenuItems (fault w) menuItems (db w) with
    | (r, d) => (r, with_db d w)
    end.

Definition filterByCategory (category_ : text) : Async (list MenuItem) :=
  fun w =>
    let w := record (FilterByCategory category_) w in
    (Database.filterByCategory category_ (db w), w).

Definition searchMenuItems (query : text) : Async (list MenuItem) :=
  fun w =>
    let w := record (SearchMenuItems query) w in
    (Database.searchMenuItems query (db w), w).

(** [async function fetchMenuFromAPI()]: the caught error is logged and
    rethrown unchanged. *)
Definition fetchMenuFromAPI : Async ApiData :=
  fun w => let w := record Fetch w in (remote w, w).

(** *** Grouping into sections *)

(** The message of the TypeError raised by calling the undefined [push] of
    an inherited property (the wording is the engine's). *)
Definition not_a_function : string :=
  "grouped[item.category].push is not a function".

(** [if (!grouped[item.category]) grouped[item.category] = [];
     grouped[item.category].push(item);] *)
Definition group_item (grouped : Js.Object_) (item : MenuItem)
  : result Js.Object_ :=
  let k := category item in
  if Js.hasOwn k grouped then Ok (Js.push k item grouped)
  else if Js.inherited k then Err not_a_function
  else Ok (Js.push k item (Js.define k grouped)).

(** [menuItems.forEach(item => ...)] *)
Fixpoint forEach (menuItems : list MenuItem) (grouped : Js.Object_)
  : result Js.Object_ :=
  match menuItems with
  | [] => Ok grouped
  | item :: rest =>
      match group_item grouped item with
      | Ok grouped' => forEach rest grouped'
      | Err m => Err m
      end
  end.

(** The "Transform data to SectionList format" block, which occurs verbatim
    in [loadMenuByCategory] and in the search effect: the value passed to
    [setSections], or the thrown error. *)
Definition toSections (menuItems : list MenuItem) : result (list MenuSection) :=
  match menuItems with
  | [] => Ok []
  | _ :: _ =>
      match forEach menuItems [] with
      | Ok grouped =>
          Ok (map (fun category_ =>
                     {| title := category_; data := Js.get category_ grouped |})
                (Js.Object_keys grouped))
      | Err m => Err m
      end
  end.

Definition transform (menuItems : list MenuItem) : Async unit :=
  fun w =>
    match toSections menuItems with
    | Ok sectionData => setSections sectionData w
    | Err m => (Err m, w)
    end.

(** [const loadMenuByCategory = async (category, existingMenuItems = null)].
    An array, even an empty one, is truthy. *)
Definition loadMenuByCategory (category_ : text)
    (existingMenuItems : option (list MenuItem)) : Async unit :=
  setLoading true ;;
  try_finally
    (try_catch
       (menuItems <- match existingMenuItems with
                     | Some items => ret items
                     | None => filterByCategory category_
                     end ;;
        transform menuItems)
       (fun m => setError (message_or m "Error loading menu")))
    (setLoading false).

(** [const initializeApp = async () => { ... }] *)
Definition initializeApp : Async unit :=
  try_finally
    (try_catch
       (createTable ;;
        menuItems <- getMenuItemsFromDB ;;
        menuItems <-
          match menuItems with
          | [] =>
              apiData <- fetchMenuFromAPI ;;
              match apiData with
              | WithMenu menu => saveMenuItems menu ;; ret menu
              | _ => ret menuItems
              end
          | _ :: _ => ret menuItems
          end ;;
        loadMenuByCategory Database.all (Some menuItems) ;;
        setIsInitialized true)
       (fun m => setError (message_or m "Error initializing app")))
    (setLoading false).

(** The filtering/searching effect, run with the current
    [selectedCategory] and [debouncedSearchQuery]. *)
Definition queryEffect (selectedCategory debouncedSearchQuery : text)
  : Async unit :=
  fun w =>
    if isInitialized (state w) then
      if negb (isEmpty (trim debouncedSearchQuery)) then
        try_catch
          (menuItems <- searchMenuItems debouncedSearchQuery ;;
           setLoading true ;;
           transform menuItems ;;
           setLoading false)
          (fun m =>
             setError (message_or m "Error searching menu") ;;
             setLoading false) w
      else loadMenuByCategory selectedCategory None w
    else (Ok tt, w).

End Home.

(* ===================================================================== *)
(** ** Vocabulary of the properties *)
(* ===================================================================== *)

Module Spec.

Local Open Scope N_scope.

(** A text that does not start with white space. *)
Definition clean_start (s : text) : Prop :=
  match s with [] => True | c :: _ => isWhiteSpace c = false end.

(** Blank: empty or white space only. *)
Definition blank (q : text) : Prop := trim q = [].

(** Case is ignored the way SQLite ignores it: on the ASCII letters. *)
Definition same_ignoring_case (a b : text) : Prop := LOWER a = LOWER b.

(** [q] occurs in [s] as a contiguous run, up to case. *)
Definition substring_ignoring_case (q s : text) : Prop :=
  exists before run after_,
    s = before ++ run ++ after_ /\ same_ignoring_case run q.

Fixpoint prefix_ci (q s : text) : bool :=
  match q, s with
  | [], _ => true
  | _ :: _, [] => false
  | c :: q', d :: s' => (lowerChar c =? lowerChar d) && prefix_ci q' s'
  end.

(** The decision procedure for [substring_ignoring_case]. *)
Fixpoint contains_ci (q s : text) : bool :=
  prefix_ci q s
  || match s with
     | [] => false
     | _ :: s' => contains_ci q s'
     end.

(** The rows a pure containment search for [q] selects. *)
Definition mentions (q : text) (r : MenuItem) : bool :=
  contains_ci q (name r) || contains_ci q (description r).

(** No LIKE metacharacter. *)
Definition wildcard_free (q : text) : Prop :=
  Forall (fun c => c <> percent /\ c <> underscore) q.

(** The order of BINARY collation, and the two sort keys built on it. *)
Definition text_le (a b : text) : Prop := Text.compare a b <> Gt.

Definition category_name_le (x y : MenuItem) : Prop :=
  Text.compare (category x) (category y) = Lt
  \/ (category x = category y /\ text_le (name x) (name y)).

Definition name_le (x y : MenuItem) : Prop := text_le (name x) (name y).

(** "Returns exactly the rows satisfying [p], in ascending [le] order". *)
Definition selects (p : MenuItem -> bool) (le : MenuItem -> MenuItem -> Prop)
    (rows : list MenuItem) (r : result (list MenuItem)) : Prop :=
  exists out,
    r = Ok out /\ Permutation out (filter p rows) /\ StronglySorted le out.

(** The rows whose category is [c] up to case. *)
Definition category_is (c : text) (r : MenuItem) : bool :=
  Text.eqb (LOWER (category r)) (LOWER c).

(** Row [row] holds item [item]: the same columns, under the item's id when
    it has one. *)
Definition stores (item row : MenuItem) : Prop :=
  name row = name item /\ price row = price item
  /\ description row = description item /\ image row = image item
  /\ category row = category item
  /\ (exists k, id row = Some k)
  /\ (forall k, id item = Some k -> id row = Some k).

(** The table holds exactly the items [A]. *)
Definition holds_exactly (A rows : list MenuItem) : Prop :=
  exists inserted, Forall2 stores A inserted /\ Permutation rows inserted.

(** The ids a replacement gives the items of [A], in the order of [A],
    when [m] is the largest id used so far and [used] are the ids given so
    far in this replacement: a supplied id is kept, and must be a 64-bit
    integer not yet given; an item without id gets [m + 1], which must
    exist.  [None] when some item cannot be given an id. *)
Fixpoint assign_ids (m : Z) (used : list Z) (A : list MenuItem)
  : option (list Z) :=
  match A with
  | [] => Some []
  | item :: rest =>
      match id item with
      | Some k =>
          if Sql.is_int64 k && negb (existsb (Z.eqb k) used)
          then option_map (cons k) (assign_ids (Z.max m k) (k :: used) rest)
          else None
      | None =>
          if (m <? Sql.MAX_ROWID)%Z
          then option_map (cons (m + 1)%Z)
                 (assign_ids (m + 1)%Z ((m + 1)%Z :: used) rest)
          else None
      end
  end.

(** The rows made of the items of [A] under the ids [ids], item by item. *)
Fixpoint rows_of (ids : list Z) (A : list MenuItem) : list MenuItem :=
  match ids, A with
  | k :: ids', item :: A' => Sql.with_id k item :: rows_of ids' A'
  | _, _ => []
  end.

(** When a replacement goes through: the table exists, the engine fault (if
    any) lies beyond the last statement of the transaction (the DELETE, one
    INSERT per item, the COMMIT), and every item can be given an id. *)
Definition accepted (fault : option nat) (A : list MenuItem) (db : Store)
  : Prop :=
  menuitems db <> None
  /\ (forall j, fault = Some j -> (List.length A + 1 < j)%nat)
  /\ assign_ids (Z.max (sqlite_sequence db) 0) [] A <> None.

(** The distinct categories of a sequence, in order of first appearance. *)
Fixpoint firstSeen (ks : list text) : list text :=
  match ks with
  | [] => []
  | k :: ks' => k :: filter (fun k' => negb (Text.eqb k' k)) (firstSeen ks')
  end.

(** The items of a category, in the order of the sequence. *)
Definition in_category (k : text) (items : list MenuItem) : list MenuItem :=
  filter (fun item => Text.eqb (category item) k) items.

Definition section_for (items : list MenuItem) (k : text) : Home.MenuSection :=
  {| Home.title := k; Home.data := in_category k items |}.

(** One section per category, in order of first appearance. *)
Definition first_seen_sections (items : list MenuItem)
  : list Home.MenuSection :=
  map (section_for items) (firstSeen (map category items)).

(** The object [grouped] once [forEach] has visited the items [p], given
    its keys. *)
Definition grouped_after (p : list MenuItem) (ks : list text) : Js.Object_ :=
  map (fun k => (k, in_category k p)) ks.

(** The store is empty: no table yet, or a table without rows. *)
Definition empty_store (db : Store) : Prop :=
  match menuitems db with
  | None | Some [] => True
  | Some (_ :: _) => False
  end.

Definition is_fetch (c : Home.Call) : bool :=
  match c with Home.Fetch => true | _ => false end.

Definition is_write (c : Home.Call) : bool :=
  match c with Home.SaveMenuItems _ => true | _ => false end.

(** The calls to the remote source among [cs]. *)
Definition fetches (cs : list Home.Call) : list Home.Call := filter is_fetch cs.

(** The world after the effect has served each (category, search text)
    pair in turn. *)
Fixpoint serve (queries : list (text * text)) (w : Home.World) : Home.World :=
  match queries with
  | [] => w
  | (c, q) :: rest => serve rest (snd (Home.queryEffect c q w))
  end.

End Spec.

Import Spec.

(* ===================================================================== *)
(** ** Sample data *)
(* ===================================================================== *)

Module Sample.

Local Open Scope Z_scope.
Local Open Scope string_scope.

Definition item (i : option Z) (n d c : string) : MenuItem :=
  {| id := i; name := lit n; price := 5.5%Q; description := lit d;
     image := lit "item.jpg"; category := lit c |}.

Definition greek_salad : MenuItem :=
  item (Some 1) "Greek Salad" "Crispy lettuce, peppers and olives" "starters".

Definition lemon_cake : MenuItem :=
  item (Some 2) "Lemon Cake" "Grandma's recipe" "desserts".

Definition pasta : MenuItem :=
  item (Some 3) "Pasta" "Penne with fried aubergines" "mains".

Definition rows : list MenuItem := [greek_salad; lemon_cake; pasta].

Definition store : Store := {| menuitems := Some rows; sqlite_sequence := 3 |}.

Definition fresh : Store := {| menuitems := None; sqlite_sequence := 0 |}.

Definition empty : Store := {| menuitems := Some []; sqlite_sequence := 0 |}.

(** A menu as the remote source sends it: no ids, in the order of the
    document. *)
Definition payload : list MenuItem :=
  [item None "Pasta" "Penne with fried aubergines" "mains";
   item None "Greek Salad" "Crispy lettuce, peppers and olives" "starters";
   item None "Lemon Cake" "Grandma's recipe" "desserts";
   item None "Bruschetta" "Grilled bread with garlic" "starters"].

Definition world (d : Store) (r : result Home.ApiData) : Home.World :=
  {| Home.db := d; Home.remote := r; Home.fault := None;
     Home.state := Home.initialState; Home.calls := [] |}.

End Sample.

(* ===================================================================== *)
(** ** screens/Home.js: the inputs of the query effect *)
(* ===================================================================== *)

Module Inputs.

(** The three pieces of state the filtering effect depends on, besides
    [isInitialized]. *)
Record Filters : Type := {
  selectedCategory : text;
  searchQuery : text;
  debouncedSearchQuery : text
}.

(** [useState('all')], [useState('')], [useState('')] *)
Definition initial : Filters :=
  {| selectedCategory := lit "all"; searchQuery := [];
     debouncedSearchQuery := [] |}.

(** [const handleCategoryPress = (category) => { ... }] *)
Definition handleCategoryPress (category_ : text) (f : Filters) : Filters :=
  {| selectedCategory := category_; searchQuery := [];
     debouncedSearchQuery := debouncedSearchQuery f |}.

(** [const handleSearchChange = (query) => { ... }] *)
Definition handleSearchChange (query : text) (f : Filters) : Filters :=
  {| selectedCategory :=
       if negb (isEmpty (trim query)) then lit "all" else selectedCategory f;
     searchQuery := query;
     debouncedSearchQuery := debouncedSearchQuery f |}.

(** The timer of the debounce effect fires.  Every change of [searchQuery]
    clears the pending timer and starts a new one, so the timer that fires
    carries the current [searchQuery]. *)
Definition debounce (f : Filters) : Filters :=
  {| selectedCategory := selectedCategory f; searchQuery := searchQuery f;
     debouncedSearchQuery := searchQuery f |}.

Inductive Event : Type :=
| PressCategory (category_ : text)
| ChangeSearch (query : text)
| TimerFires.

Definition handle (f : Filters) (e : Event) : Filters :=
  match e with
  | PressCategory c => handleCategoryPress c f
  | ChangeSearch q => handleSearchChange q f
  | TimerFires => debounce f
  end.

Definition after (events : list Event) : Filters :=
  fold_left handle events initial.

(** The filtering effect, run on the current inputs. *)
Definition effect (f : Filters) : Home.Async unit :=
  Home.queryEffect (selectedCategory f) (debouncedSearchQuery f).

End Inputs.

(* ===================================================================== *)
(** ** Regular expressions, the key-value store, and the other screens

    In the modules below a [text] is a JavaScript string as such: its
    sequence of UTF-16 code units, which is what a RegExp without the [u]
    flag walks over. *)
(* ===================================================================== *)

Module Regex.

Local Open Scope N_scope.

(** Patterns without back-references; a character class is its membership
    test. *)
Inductive regex : Type :=
| Void
| Eps
| Class (p : N -> bool)
| Cat (a b : regex)
| Alt (a b : regex)
| Star (a : regex).

(** [a+], [a?] *)
Definition plus (a : regex) : regex := Cat a (Star a).
Definition opt (a : regex) : regex := Alt Eps a.

(** A literal character. *)
Definition chr (c : N) : regex := Class (N.eqb c).

Definition isLineTerminator (c : N) : bool :=
  (c =? 10) || (c =? 13) || (c =? 8232) || (c =? 8233).

(** [.] matches any code unit but a line terminator. *)
Definition any : regex := Class (fun c => negb (isLineTerminator c)).

Fixpoint nullable (r : regex) : bool :=
  match r with
  | Void => false
  | Eps => true
  | Class _ => false
  | Cat a b => nullable a && nullable b
  | Alt a b => nullable a || nullable b
  | Star _ => true
  end.

(** The pattern for what may follow a first character [c]. *)
Fixpoint deriv (c : N) (r : regex) : regex :=
  match r with
  | Void => Void
  | Eps => Void
  | Class p => if p c then Eps else Void
  | Cat a b =>
      Alt (Cat (deriv c a) b) (if nullable a then deriv c b else Void)
  | Alt a b => Alt (deriv c a) (deriv c b)
  | Star a => Cat (deriv c a) (Star a)
  end.

(** [/^r$/.test(s)] *)
Fixpoint test (r : regex) (s : text) : bool :=
  match s with
  | [] => nullable r
  | c :: s' => test (deriv c r) s'
  end.

End Regex.

Module AsyncStorage.

(** The key-value store, as the list of its entries; a key occurs at most
    once in a store built by the operations below. *)
Definition Storage : Type := list (string * text).

Fixpoint getItem (key : string) (s : Storage) : option text :=
  match s with
  | [] => None
  | (k, v) :: s' => if String.eqb key k then Some v else getItem key s'
  end.

Fixpoint removeItem (key : string) (s : Storage) : Storage :=
  match s with
  | [] => []
  | (k, v) :: s' =>
      if String.eqb key k then removeItem key s' else (k, v) :: removeItem key s'
  end.

Definition setItem (key : string) (value : text) (s : Storage) : Storage :=
  (key, value) :: removeItem key s.

Definition clear (s : Storage) : Storage := [].

(** A value read from the store is truthy when it is a non-empty string. *)
Definition truthy (v : option text) : bool :=
  match v with
  | Some (_ :: _) => true
  | _ => false
  end.

End AsyncStorage.

Module App.

Local Open Scope string_scope.

(** The state of [useAsyncStorageListener(key, defaultValue)]. *)
Record Listener : Type := {
  value : bool;
  isLoading : bool
}.

Definition useAsyncStorageListener (defaultValue : bool) : Listener :=
  {| value := defaultValue; isLoading := true |}.

(** [storedValue === 'true'] *)
Definition is_true (storedValue : option text) : bool :=
  match storedValue with
  | Some v => Text.eqb v (lit "true")
  | None => false
  end.

(** One run of [loadValue] (on mount, then every 100 ms), given what
    [AsyncStorage.getItem(key)] settles to. *)
Definition loadValue (stored : result (option text)) (l : Listener) : Listener :=
  match stored with
  | Ok storedValue => {| value := is_true storedValue; isLoading := false |}
  | Err _ => {| value := value l; isLoading := false |}
  end.

(** A run of [loadValue] for the key [isLoggedIn] on a working store. *)
Definition poll (s : AsyncStorage.Storage) (l : Listener) : Listener :=
  loadValue (Ok (AsyncStorage.getItem "isLoggedIn" s)) l.

(** What [App] renders. *)
Inductive Rendered : Type :=
| SplashScreen
| LoggedIn    (* the Home and Profile screens *)
| LoggedOut.  (* the Onboarding screen *)

Definition App (l : Listener) : Rendered :=
  if isLoading l then SplashScreen
  else if value l then LoggedIn else LoggedOut.

End App.

Module Onboarding.

Import Regex.
Local Open Scope N_scope.

Definition isLetter (c : N) : bool :=
  ((65 <=? c) && (c <=? 90)) || ((97 <=? c) && (c <=? 122)).

Definition isDigit (c : N) : bool := (48 <=? c) && (c <=? 57).

(** [/^[A-Za-z]+$/] *)
Definition firstNamePattern : regex := plus (Class isLetter).

(** The negated class of the local part: any code unit but the angle
    brackets, the parentheses, the square brackets, the backslash, the dot,
    the comma, the semicolon, the colon, white space, the at sign and the
    double quote. *)
Definition isAtomChar (c : N) : bool :=
  negb (existsb (N.eqb c) [60; 62; 40; 41; 91; 93; 92; 46; 44; 59; 58]
        || isWhiteSpace c || (c =? 64) || (c =? 34)).

(** The class of a label: ASCII letters, the hyphen, digits. *)
Definition isHostChar (c : N) : bool := isLetter c || (c =? 45) || isDigit c.

(** [[0-9]{1,3}] *)
Definition digits_1_3 : regex :=
  Cat (Class isDigit) (Cat (opt (Class isDigit)) (opt (Class isDigit))).

(** The part before the [@]: dot-separated atoms, or any character
    followed by a quoted string. *)
Definition localPattern : regex :=
  Alt (Cat (plus (Class isAtomChar))
         (Star (Cat (chr 46) (plus (Class isAtomChar)))))
      (Cat any (Cat (chr 34) (Cat (plus any) (chr 34)))).

(** The part after the [@]: a bracketed dotted quad, or dot-separated
    labels ending in two or more letters. *)
Definition domainPattern : regex :=
  Alt (Cat (chr 91)
         (Cat digits_1_3 (Cat (chr 46)
         (Cat digits_1_3 (Cat (chr 46)
         (Cat digits_1_3 (Cat (chr 46)
         (Cat digits_1_3 (chr 93)))))))))
      (Cat (plus (Cat (plus (Class isHostChar)) (chr 46)))
         (Cat (Class isLetter) (Cat (Class isLetter) (Star (Class isLetter))))).

(** The email pattern of the screen. *)
Definition emailPattern : regex :=
  Cat localPattern (Cat (chr 64) domainPattern).

Definition isFirstNameValid (firstName : text) : bool :=
  test firstNamePattern firstName.

Definition isEmailValid (email : text) : bool := test emailPattern email.

Local Open Scope string_scope.

(** [const handleNext = async () => { ... }] *)
Definition handleNext (firstName email : text) (s : AsyncStorage.Storage)
  : AsyncStorage.Storage :=
  if isFirstNameValid firstName && isEmailValid email then
    AsyncStorage.setItem "isLoggedIn" (lit "true")
      (AsyncStorage.setItem "email" email
         (AsyncStorage.setItem "firstName" firstName s))
  else s.

End Onboarding.

Module Profile.

Import AsyncStorage.
Local Open Scope string_scope.

(** The form state of the screen. *)
Record Form : Type := {
  avatar : option text;
  firstName : text;
  lastName : text;
  email : text;
  phone : text
}.

Definition blank_form : Form :=
  {| avatar := None; firstName := []; lastName := []; email := [];
     phone := [] |}.

(** [if (stored) set(stored)] *)
Definition keep_or (stored : option text) (current : text) : text :=
  match stored with
  | Some (c :: v) => c :: v
  | _ => current
  end.

(** [const loadProfileData = async () => { ... }] *)
Definition loadProfileData (s : Storage) (f : Form) : Form :=
  {| avatar := if truthy (getItem "avatar" s) then getItem "avatar" s
               else avatar f;
     firstName := keep_or (getItem "firstName" s) (firstName f);
     lastName := keep_or (getItem "lastName" s) (lastName f);
     email := keep_or (getItem "email" s) (email f);
     phone := keep_or (getItem "phone" s) (phone f) |}.

(** What the image picker hands back: [canceled], and the uris of
    [assets] when there are any. *)
Record PickerResult : Type := {
  canceled : bool;
  assets : option (list text)
}.

Definition with_avatar (a : option text) (f : Form) : Form :=
  {| avatar := a; firstName := firstName f; lastName := lastName f;
     email := email f; phone := phone f |}.

(** [const handleChangeAvatar = async () => { ... }], given whether the
    permission was granted and what the picker returned. *)
Definition handleChangeAvatar (granted : bool) (picked : PickerResult)
    (f : Form) (s : Storage) : Form * Storage :=
  if granted then
    match canceled picked, assets picked with
    | false, Some (uri :: _) =>
        (with_avatar (Some uri) f, setItem "avatar" uri s)
    | _, _ => (f, s)
    end
  else (f, s).

(** [const handleRemoveAvatar = () => { setAvatar(null); }] *)
Definition handleRemoveAvatar (f : Form) : Form := with_avatar None f.

(** [const handleLogout = async () => { await AsyncStorage.clear(); }] *)
Definition handleLogout (s : Storage) : Storage := clear s.

Inductive Alert : Type :=
| MissingInformation
| Success.

(** [const handleSave = async () => { ... }] *)
Definition handleSave (f : Form) (s : Storage) : Alert * Storage :=
  if isEmpty (trim (firstName f)) || isEmpty (trim (email f)) then
    (MissingInformation, s)
  else
    let s := setItem "firstName" (firstName f) s in
    let s := setItem "lastName" (lastName f) s in
    let s := setItem "email" (email f) s in
    let s := setItem "phone" (phone f) s in
    let s := match avatar f with
             | Some (c :: uri) => setItem "avatar" (c :: uri) s
             | _ => s
             end in
    (Success, s).

(** [const handleDiscard = async () => { ... }] *)
Definition handleDiscard (f : Form) (s : Storage) : Form * Storage :=
  (blank_form,
   removeItem "avatar"
     (removeItem "phone"
        (removeItem "email"
           (removeItem "lastName" (removeItem "firstName" s))))).

(** Home.js, [loadAvatar]: the avatar shown in the header of the menu. *)
Definition loadAvatar (s : Storage) (current : option text) : option text :=
  if truthy (getItem "avatar" s) then getItem "avatar" s else current.

End Profile.

(* ===================================================================== *)
(** ** Further vocabulary *)
(* ===================================================================== *)

Module More.

Local Open Scope Z_scope.


(** A table as SQLite keeps it: every row has a rowid, and the rows are in
    strictly ascending rowid order (so no rowid occurs twice). *)
Definition keyed (rows : list MenuItem) : Prop :=
  Forall (fun r => id r <> None) rows
  /\ StronglySorted (fun a b => Sql.rowid a < Sql.rowid b) rows.

(** The WHERE clause of the search for [q]. *)
Definition search_hit (q : text) (r : MenuItem) : bool :=
  like (LOWER (Database.searchTerm q)) (LOWER (name r))
  || like (LOWER (Database.searchTerm q)) (LOWER (description r)).

(** The strings a pattern matches from end to end. *)
Inductive lang : Regex.regex -> text -> Prop :=
| lang_eps : lang Regex.Eps []
| lang_class (p : N -> bool) (c : N) : p c = true -> lang (Regex.Class p) [c]
| lang_cat (a b : Regex.regex) (s t : text) :
    lang a s -> lang b t -> lang (Regex.Cat a b) (s ++ t)
| lang_alt_l (a b : Regex.regex) (s : text) :
    lang a s -> lang (Regex.Alt a b) s
| lang_alt_r (a b : Regex.regex) (s : text) :
    lang b s -> lang (Regex.Alt a b) s
| lang_star_nil (a : Regex.regex) : lang (Regex.Star a) []
| lang_star_more (a : Regex.regex) (s t : text) :
    lang a s -> lang (Regex.Star a) t -> lang (Regex.Star a) (s ++ t).

(** Every character class of the pattern lies within [P]. *)
Fixpoint classes_within (P : N -> Prop) (r : Regex.regex) : Prop :=
  match r with
  | Regex.Class p => forall c, p c = true -> P c
  | Regex.Cat a b | Regex.Alt a b => classes_within P a /\ classes_within P b
  | Regex.Star a => classes_within P a
  | Regex.Void | Regex.Eps => True
  end.

(** The length of the shortest string the pattern matches, if it matches
    any. *)
Fixpoint shortest (r : Regex.regex) : option nat :=
  match r with
  | Regex.Void => None
  | Regex.Eps => Some 0%nat
  | Regex.Class _ => Some 1%nat
  | Regex.Cat a b =>
      match shortest a, shortest b with
      | Some m, Some n => Some (m + n)%nat
      | _, _ => None
      end
  | Regex.Alt a b =>
      match shortest a, shortest b with
      | Some m, Some n => Some (Nat.min m n)
      | Some m, None => Some m
      | None, o => o
      end
  | Regex.Star _ => Some 0%nat
  end.

(** The characters a domain can hold: ASCII letters, digits, the hyphen,
    the dot and the square brackets. *)
Definition isDomainChar (c : N) : bool :=
  Onboarding.isHostChar c || (c =? 46)%N || (c =? 91)%N || (c =? 93)%N.

(** The keys the profile form is saved under. *)
Definition profile_keys : list string :=
  ["firstName"; "lastName"; "email"; "phone"; "avatar"]%string.

(** While the search box is not blank, the selected category is "all". *)
Definition tidy (f : Inputs.Filters) : Prop :=
  blank (Inputs.searchQuery f) \/ Inputs.selectedCategory f = lit "all".

End More.

Import More.

(* ===================================================================== *)
(** ** Facts about text *)
(* ===================================================================== *)

Section TextFacts.

Local Open Scope N_scope.

Lemma text_eqb_eq (a b : text) : Text.eqb a b = true <-> a = b.
Proof.
  revert b; induction a as [|x a IH]; intros [|y b]; simpl;
    try (split; [discriminate | congruence]); try tauto.
  rewrite andb_true_iff, N.eqb_eq, IH.
  split; [intros [-> ->]; reflexivity | intros H; inversion H; auto].
Qed.

Lemma text_eqb_refl (a : text) : Text.eqb a a = true.
Proof. apply text_eqb_eq; reflexivity. Qed.

Lemma text_eqb_neq (a b : text) : Text.eqb a b = false <-> a <> b.
Proof.
  rewrite <- text_eqb_eq. destruct (Text.eqb a b); split; congruence.
Qed.

Lemma mem_In (k : text) (l : list text) : Text.mem k l = true <-> In k l.
Proof.
  unfold Text.mem. rewrite existsb_exists. split.
  - intros (x & Hx & E). apply text_eqb_eq in E. subst; assumption.
  - intros H. exists k. split; [assumption | apply text_eqb_refl].
Qed.

(** *** trim *)

Lemma trimStart_clean (s : text) : clean_start (trimStart s).
Proof.
  induction s as [|c s IH]; simpl; [exact I|].
  destruct (isWhiteSpace c) eqn:E; [assumption | exact E].
Qed.

Lemma trimStart_of_clean (s : text) : clean_start s -> trimStart s = s.
Proof. destruct s as [|c s]; simpl; [reflexivity | intros ->; reflexivity]. Qed.

Lemma trimEnd_clean (s : text) : clean_start s -> clean_start (trimEnd s).
Proof.
  destruct s as [|c s]; simpl; [exact (fun H => H)|].
  intros E. destruct (trimEnd s); [rewrite E|]; exact E.
Qed.

Lemma trimEnd_idempotent (s : text) : trimEnd (trimEnd s) = trimEnd s.
Proof.
  induction s as [|c s IH]; simpl; [reflexivity|].
  destruct (trimEnd s) as [|d r] eqn:E.
  - destruct (isWhiteSpace c) eqn:W; simpl; [reflexivity | rewrite W; reflexivity].
  - change (trimEnd (c :: d :: r)) with
      (match trimEnd (d :: r) with
       | [] => if isWhiteSpace c then [] else [c]
       | x :: r' => c :: x :: r'
       end).
    rewrite IH. reflexivity.
Qed.

Lemma trim_idempotent (s : text) : trim (trim s) = trim s.
Proof.
  unfold trim.
  rewrite (trimStart_of_clean _ (trimEnd_clean _ (trimStart_clean s))).
  apply trimEnd_idempotent.
Qed.

(** *** LOWER *)

Lemma lowerChar_idempotent (c : N) : lowerChar (lowerChar c) = lowerChar c.
Proof.
  unfold lowerChar.
  destruct ((65 <=? c) && (c <=? 90)) eqn:E; [|rewrite E; reflexivity].
  apply andb_true_iff in E. destruct E as [E1 E2].
  apply N.leb_le in E1. apply N.leb_le in E2.
  destruct (65 <=? c + 32) eqn:F1; destruct (c + 32 <=? 90) eqn:F2; simpl;
    try reflexivity.
  apply N.leb_le in F2. lia.
Qed.

Lemma LOWER_idempotent (s : text) : LOWER (LOWER s) = LOWER s.
Proof.
  unfold LOWER. rewrite map_map. apply map_ext, lowerChar_idempotent.
Qed.

Lemma lowerChar_percent (c : N) : (lowerChar c =? percent) = (c =? percent).
Proof.
  unfold lowerChar, percent.
  destruct ((65 <=? c) && (c <=? 90)) eqn:E; [|reflexivity].
  apply andb_true_iff in E. destruct E as [E1 E2].
  apply N.leb_le in E1. apply N.leb_le in E2.
  destruct (N.eqb_spec (c + 32) 37); destruct (N.eqb_spec c 37); try lia; reflexivity.
Qed.

Lemma lowerChar_underscore (c : N) :
  (lowerChar c =? underscore) = (c =? underscore).
Proof.
  unfold lowerChar, underscore.
  destruct ((65 <=? c) && (c <=? 90)) eqn:E; [|reflexivity].
  apply andb_true_iff in E. destruct E as [E1 E2].
  apply N.leb_le in E1. apply N.leb_le in E2.
  destruct (N.eqb_spec (c + 32) 95); destruct (N.eqb_spec c 95); try lia; reflexivity.
Qed.

(** *** BINARY collation is a total order *)

Lemma compare_refl (a : text) : Text.compare a a = Eq.
Proof.
  induction a as [|x a IH]; simpl; [reflexivity|].
  rewrite N.compare_refl. exact IH.
Qed.

Lemma compare_eq (a b : text) : Text.compare a b = Eq -> a = b.
Proof.
  revert b; induction a as [|x a IH]; intros [|y b]; simpl; try discriminate;
    [reflexivity|].
  destruct (x ?= y) eqn:E; try discriminate.
  apply N.compare_eq in E. intros H. f_equal; auto.
Qed.

Lemma compare_antisym (a b : text) :
  Text.compare b a = CompOpp (Text.compare a b).
Proof.
  revert b; induction a as [|x a IH]; intros [|y b]; simpl; try reflexivity.
  rewrite (N.compare_antisym x y).
  destruct (x ?= y); simpl; auto.
Qed.

Lemma compare_lt_trans (a b c : text) :
  Text.compare a b = Lt -> Text.compare b c = Lt -> Text.compare a c = Lt.
Proof.
  revert b c; induction a as [|x a IH]; intros [|y b] [|z c]; simpl;
    try discriminate; try reflexivity.
  destruct (x ?= y) eqn:E1; try discriminate;
    destruct (y ?= z) eqn:E2; try discriminate; intros H1 H2.
  - apply N.compare_eq in E1, E2. subst. rewrite N.compare_refl. eauto.
  - apply N.compare_eq in E1. subst. rewrite E2. reflexivity.
  - apply N.compare_eq in E2. subst. rewrite E1. reflexivity.
  - rewrite N.compare_lt_iff in E1, E2.
    assert (E : (x ?= z) = Lt) by (apply N.compare_lt_iff; lia).
    rewrite E. reflexivity.
Qed.

Lemma leb_total (a b : text) : Text.leb a b = false -> Text.leb b a = true.
Proof.
  unfold Text.leb. rewrite (compare_antisym a b).
  destruct (Text.compare a b); simpl; congruence.
Qed.

Lemma leb_trans (a b c : text) :
  Text.leb a b = true -> Text.leb b c = true -> Text.leb a c = true.
Proof.
  unfold Text.leb.
  destruct (Text.compare a b) eqn:E1; try discriminate;
    destruct (Text.compare b c) eqn:E2; try discriminate; intros _ _.
  - apply compare_eq in E1, E2. subst. rewrite compare_refl. reflexivity.
  - apply compare_eq in E1. subst. rewrite E2. reflexivity.
  - apply compare_eq in E2. subst. rewrite E1. reflexivity.
  - rewrite (compare_lt_trans _ _ _ E1 E2). reflexivity.
Qed.

End TextFacts.

(* ===================================================================== *)
(** ** Facts about LIKE *)
(* ===================================================================== *)

Section LikeFacts.

Local Open Scope N_scope.

Lemma like_percent (p s : text) :
  like (percent :: p) s
  = like p s || match s with [] => false | _ :: s' => like (percent :: p) s' end.
Proof. destruct s; reflexivity. Qed.

Lemma like_char (c : N) (p s : text) :
  (c =? percent) = false ->
  like (c :: p) s
  = match s with
    | [] => false
    | d :: s' =>
        ((c =? underscore) || (lowerChar c =? lowerChar d)) && like p s'
    end.
Proof. intros H. simpl. rewrite H. reflexivity. Qed.

Lemma like_any (s : text) : like [percent] s = true.
Proof.
  induction s as [|d s IH]; rewrite like_percent; [reflexivity|].
  rewrite IH. apply orb_true_r.
Qed.

Lemma like_literal_prefix (t s : text) :
  wildcard_free t ->
  like (LOWER t ++ [percent]) (LOWER s) = prefix_ci t s.
Proof.
  intros W. revert s.
  induction W as [|c t [Hp Hu] W IH]; intros s; simpl LOWER; simpl app.
  - rewrite like_any. reflexivity.
  - rewrite like_char by (rewrite lowerChar_percent; apply N.eqb_neq; exact Hp).
    destruct s as [|d s]; simpl; [reflexivity|].
    rewrite lowerChar_underscore.
    apply N.eqb_neq in Hu. rewrite Hu. simpl.
    rewrite !lowerChar_idempotent.
    f_equal. apply IH.
Qed.

Lemma like_contains (t s : text) :
  wildcard_free t ->
  like (LOWER (percent :: t ++ [percent])) (LOWER s) = contains_ci t s.
Proof.
  intros W.
  replace (LOWER (percent :: t ++ [percent]))
    with (percent :: LOWER t ++ [percent])
    by (unfold LOWER; cbn [map]; rewrite map_app; reflexivity).
  induction s as [|d s IH].
  - rewrite like_percent. simpl LOWER at 1.
    rewrite (like_literal_prefix t [] W). reflexivity.
  - change (LOWER (d :: s)) with (lowerChar d :: LOWER s).
    rewrite like_percent, IH.
    change (lowerChar d :: LOWER s) with (LOWER (d :: s)).
    rewrite (like_literal_prefix t (d :: s) W). reflexivity.
Qed.

(** [contains_ci] decides [substring_ignoring_case]. *)
Lemma prefix_ci_spec (q s : text) :
  prefix_ci q s = true <->
  exists run after_, s = run ++ after_ /\ same_ignoring_case run q.
Proof.
  unfold same_ignoring_case. revert s.
  induction q as [|c q IH]; intros s; simpl.
  - split; [intros _; exists [], s; auto | reflexivity].
  - destruct s as [|d s].
    + split; [discriminate|].
      intros (run & post & E & L). destruct run; discriminate.
    + rewrite andb_true_iff, N.eqb_eq, IH. split.
      * intros (E & run & post & -> & L).
        exists (d :: run), post. simpl. split; [reflexivity|]. congruence.
      * intros (run & post & E & L).
        destruct run as [|e run]; [discriminate|].
        simpl in E, L. inversion E; inversion L; subst.
        split; [congruence|]. exists run, post. auto.
Qed.

Lemma contains_ci_spec (q s : text) :
  contains_ci q s = true <-> substring_ignoring_case q s.
Proof.
  unfold substring_ignoring_case.
  induction s as [|d s IH]; simpl.
  - rewrite orb_false_r, prefix_ci_spec. split.
    + intros (run & post & E & L). exists [], run, post. auto.
    + intros (pre & run & post & E & L).
      destruct pre; [|discriminate]. exists run, post. auto.
  - rewrite orb_true_iff, prefix_ci_spec, IH. split.
    + intros [(run & post & E & L) | (pre & run & post & E & L)].
      * exists [], run, post. auto.
      * exists (d :: pre), run, post. simpl. split; congruence.
    + intros (pre & run & post & E & L). destruct pre as [|e pre].
      * left. exists run, post. auto.
      * right. simpl in E. inversion E; subst. exists pre, run, post. auto.
Qed.

End LikeFacts.

(* ===================================================================== *)
(** ** Facts about ORDER BY *)
(* ===================================================================== *)

Section OrderBy.

Variable le : MenuItem -> MenuItem -> bool.
Variable R : MenuItem -> MenuItem -> Prop.
Hypothesis le_R : forall x y, le x y = true -> R x y.
Hypothesis le_total : forall x y, le x y = false -> R y x.
Hypothesis R_trans : forall x y z, R x y -> R y z -> R x z.

Lemma insert_by_perm (x : MenuItem) (l : list MenuItem) :
  Permutation (Sql.insert_by le x l) (x :: l).
Proof.
  induction l as [|y l IH]; simpl; [reflexivity|].
  destruct (le x y); [reflexivity|].
  rewrite IH. apply perm_swap.
Qed.

Lemma order_by_perm (l : list MenuItem) : Permutation (Sql.order_by le l) l.
Proof.
  induction l as [|x l IH]; simpl; [reflexivity|].
  rewrite insert_by_perm. constructor. exact IH.
Qed.

Lemma insert_by_hd (a x : MenuItem) (l : list MenuItem) :
  HdRel R a l -> R a x -> HdRel R a (Sql.insert_by le x l).
Proof.
  intros H Hax. destruct l as [|y l]; simpl; [constructor; assumption|].
  destruct (le x y); constructor; [assumption|].
  inversion H; assumption.
Qed.

Lemma insert_by_sorted (x : MenuItem) (l : list MenuItem) :
  Sorted R l -> Sorted R (Sql.insert_by le x l).
Proof.
  induction 1 as [|y l Hs IH Hd]; simpl; [repeat constructor|].
  destruct (le x y) eqn:E.
  - constructor; [constructor; assumption|]. constructor. apply le_R, E.
  - constructor; [exact IH|]. apply insert_by_hd; [exact Hd|].
    apply le_total, E.
Qed.

Lemma order_by_sorted (l : list MenuItem) :
  StronglySorted R (Sql.order_by le l).
Proof.
  apply Sorted_StronglySorted; [exact R_trans|].
  induction l as [|x l IH]; simpl; [constructor|].
  apply insert_by_sorted, IH.
Qed.

Lemma select_selects (p : MenuItem -> bool) (db : Store) (rows : list MenuItem) :
  menuitems db = Some rows ->
  selects p R rows (Sql.select p (Some le) db).
Proof.
  intros H. unfold selects, Sql.select. rewrite H.
  eexists. split; [reflexivity|]. split.
  - apply order_by_perm.
  - apply order_by_sorted.
Qed.

End OrderBy.

Section SortKeys.

Lemma text_le_leb (a b : text) : Text.leb a b = true <-> text_le a b.
Proof.
  unfold Text.leb, text_le.
  destruct (Text.compare a b); split; congruence.
Qed.

Lemma text_le_trans (a b c : text) : text_le a b -> text_le b c -> text_le a c.
Proof. rewrite <- !text_le_leb. apply leb_trans. Qed.

Lemma by_name_le (x y : MenuItem) : Sql.by_name x y = true -> name_le x y.
Proof. apply text_le_leb. Qed.

Lemma by_name_total (x y : MenuItem) : Sql.by_name x y = false -> name_le y x.
Proof. intros H. apply text_le_leb, leb_total, H. Qed.

Lemma name_le_trans (x y z : MenuItem) : name_le x y -> name_le y z -> name_le x z.
Proof. apply text_le_trans. Qed.

Lemma by_category_name_le (x y : MenuItem) :
  Sql.by_category_name x y = true -> category_name_le x y.
Proof.
  unfold Sql.by_category_name, category_name_le.
  destruct (Text.compare (category x) (category y)) eqn:E; try discriminate.
  - intros H. right. split; [apply compare_eq, E | apply text_le_leb, H].
  - left. reflexivity.
Qed.

Lemma by_category_name_total (x y : MenuItem) :
  Sql.by_category_name x y = false -> category_name_le y x.
Proof.
  unfold Sql.by_category_name, category_name_le.
  rewrite (compare_antisym (category x) (category y)).
  destruct (Text.compare (category x) (category y)) eqn:E; try discriminate;
    simpl.
  - intros H. right. split; [symmetry; apply compare_eq, E|].
    apply text_le_leb, leb_total, H.
  - left. reflexivity.
Qed.

Lemma category_name_le_trans (x y z : MenuItem) :
  category_name_le x y -> category_name_le y z -> category_name_le x z.
Proof.
  unfold category_name_le.
  intros [H1 | [E1 N1]] [H2 | [E2 N2]].
  - left. eapply compare_lt_trans; eassumption.
  - left. rewrite <- E2. exact H1.
  - left. rewrite E1. exact H2.
  - right. split; [congruence | eapply text_le_trans; eassumption].
Qed.

Lemma select_by_category_name (p : MenuItem -> bool) db rows :
  menuitems db = Some rows ->
  selects p category_name_le rows
    (Sql.select p (Some Sql.by_category_name) db).
Proof.
  apply select_selects.
  - exact by_category_name_le.
  - exact by_category_name_total.
  - exact category_name_le_trans.
Qed.

Lemma select_by_name (p : MenuItem -> bool) db rows :
  menuitems db = Some rows ->
  selects p name_le rows (Sql.select p (Some Sql.by_name) db).
Proof.
  apply select_selects.
  - exact by_name_le.
  - exact by_name_total.
  - exact name_le_trans.
Qed.

Lemma selects_ok (p : MenuItem -> bool) le rows (r : result (list MenuItem))
    (wrap : string) :
  selects p le rows r ->
  selects p le rows (match r with Ok out => Ok out | Err m => Err (wrap ++ m) end).
Proof. intros (out & -> & H). exists out. split; [reflexivity | exact H]. Qed.

Lemma selects_ext (p p' : MenuItem -> bool) le rows r :
  (forall x, p x = p' x) -> selects p le rows r -> selects p' le rows r.
Proof.
  intros E (out & -> & P & S). exists out. split; [reflexivity|].
  split; [|exact S]. rewrite <- (filter_ext _ _ E). exact P.
Qed.

Lemma filter_all (rows : list MenuItem) : filter (fun _ => true) rows = rows.
Proof. induction rows as [|r rows IH]; simpl; congruence. Qed.

End SortKeys.

(* ===================================================================== *)
(** ** The menu store: filtering and searching *)
(* ===================================================================== *)

Section Queries.

Import Database.

Lemma category_is_spec (c : text) (r : MenuItem) :
  category_is c r = true <-> same_ignoring_case (category r) c.
Proof. apply text_eqb_eq. Qed.

Lemma all_is_all : Text.eqb all all = true.
Proof. reflexivity. Qed.

(** C4.  On a store holding [rows], [filterByCategory("all")] returns every
    row in ascending (category, name) order; for any other category value
    [c] it returns exactly the rows whose category equals [c] up to case, in
    ascending name order; and when no row has that category the result is
    the empty sequence, not an error. *)
Theorem filterByCategory_correct (db : Store) (rows : list MenuItem) :
  menuitems db = Some rows ->
  (exists out,
      filterByCategory all db = Ok out
      /\ Permutation out rows /\ StronglySorted category_name_le out)
  /\ (forall c, c <> all ->
        selects (category_is c) name_le rows (filterByCategory c db))
  /\ (forall c, c <> all ->
        (forall r, In r rows -> ~ same_ignoring_case (category r) c) ->
        filterByCategory c db = Ok []).
Proof.
  intros H.
  assert (Hc : forall c, c <> all ->
            selects (category_is c) name_le rows (filterByCategory c db)).
  { intros c Hc. unfold filterByCategory.
    apply text_eqb_neq in Hc. rewrite Hc.
    apply selects_ok. apply select_by_name, H. }
  split; [|split].
  - unfold filterByCategory. rewrite all_is_all.
    destruct (select_by_category_name (fun _ => true) db rows H)
      as (out & -> & P & S).
    rewrite filter_all in P. exists out. auto.
  - exact Hc.
  - intros c Hneq Hnone.
    destruct (Hc c Hneq) as (out & -> & P & _).
    replace (filter (category_is c) rows) with (@nil MenuItem) in P.
    + apply Permutation_sym, Permutation_nil in P. subst. reflexivity.
    + symmetry. clear -Hnone. induction rows as [|r rows' IH]; [reflexivity|].
      simpl. destruct (category_is c r) eqn:E.
      * apply category_is_spec in E. exfalso. apply (Hnone r); simpl; auto.
      * apply IH. intros r' Hr'. apply Hnone. simpl; auto.
Qed.

Lemma filterByCategory_correct_witness :
  menuitems Sample.store = Some Sample.rows
  /\ (exists out,
        filterByCategory all Sample.store = Ok out
        /\ Permutation out Sample.rows /\ StronglySorted category_name_le out)
  /\ selects (category_is (lit "MAINS")) name_le Sample.rows
       (filterByCategory (lit "MAINS") Sample.store).
Proof.
  split; [reflexivity|].
  destruct (@filterByCategory_correct Sample.store Sample.rows eq_refl)
    as (Hall & Hc & _).
  split; [exact Hall|].
  apply Hc. discriminate.
Defined.

(** C5.  On a store holding rows, a blank query (empty, or white space
    only) gives [searchMenuItems] the result of [filterByCategory("all")]. *)
Theorem blank_search_is_all (db : Store) (rows : list MenuItem) (q : text) :
  menuitems db = Some rows ->
  blank q ->
  searchMenuItems q db = filterByCategory all db.
Proof.
  intros H B. unfold searchMenuItems, filterByCategory.
  rewrite all_is_all. unfold blank in B. rewrite B.
  rewrite orb_true_r.
  unfold Sql.select. rewrite H. reflexivity.
Qed.

Lemma blank_search_is_all_witness :
  searchMenuItems (lit "") Sample.store = filterByCategory all Sample.store
  /\ searchMenuItems (lit "   ") Sample.store
     = filterByCategory all Sample.store.
Proof.
  split.
  - apply (@blank_search_is_all Sample.store Sample.rows (lit ""));
      reflexivity.
  - apply (@blank_search_is_all Sample.store Sample.rows (lit "   "));
      reflexivity.
Defined.

(** C9.  For every query and every store, [searchMenuItems(q)] and
    [searchMenuItems(q.trim())] give the same result (the same rows in the
    same order, or the same error). *)
Theorem search_ignores_outer_whitespace (q : text) (db : Store) :
  searchMenuItems q db = searchMenuItems (trim q) db.
Proof.
  unfold searchMenuItems, searchTerm.
  rewrite trim_idempotent.
  destruct q as [|c q]; [reflexivity|].
  simpl isEmpty at 1. rewrite orb_false_l, orb_diag. reflexivity.
Qed.

(** C2 as stated fails.  The query [" lemon "] is not blank and is not a
    substring of any name or description of the sample rows, yet the search
    returns the row named ["Lemon Cake"]: the query is trimmed before it is
    matched.  The query ["_"] occurs in no name or description either, yet
    the search returns every row: the query is spliced into the LIKE
    pattern as it is, and [_] and [%] are wild cards there. *)
Lemma search_is_not_pure_containment :
  menuitems Sample.store = Some Sample.rows
  /\ (~ blank (lit " lemon ")
      /\ searchMenuItems (lit " lemon ") Sample.store = Ok [Sample.lemon_cake]
      /\ filter (mentions (lit " lemon ")) Sample.rows = []
      /\ ~ selects (mentions (lit " lemon ")) category_name_le Sample.rows
            (searchMenuItems (lit " lemon ") Sample.store))
  /\ (~ blank (lit "_")
      /\ searchMenuItems (lit "_") Sample.store
         = Ok [Sample.lemon_cake; Sample.pasta; Sample.greek_salad]
      /\ filter (mentions (lit "_")) Sample.rows = []
      /\ ~ selects (mentions (lit "_")) category_name_le Sample.rows
            (searchMenuItems (lit "_") Sample.store)).
Proof.
  split; [reflexivity|]. split.
  - split; [discriminate|]. split; [reflexivity|]. split; [reflexivity|].
    intros (out & E & P & _).
    vm_compute in E. inversion E; subst out.
    apply Permutation_length in P. vm_compute in P. discriminate.
  - split; [discriminate|]. split; [reflexivity|]. split; [reflexivity|].
    intros (out & E & P & _).
    vm_compute in E. inversion E; subst out.
    apply Permutation_length in P. vm_compute in P. discriminate.
Qed.

(** C2, amended.  On a store holding [rows], for a query [q] that is not
    blank and whose trimmed form contains neither [%] nor [_],
    [searchMenuItems(q)] returns exactly the rows whose name or description
    contains the trimmed query as a substring up to case, in ascending
    (category, name) order. *)
Theorem search_is_containment_of_trimmed_query
    (db : Store) (rows : list MenuItem) (q : text) :
  menuitems db = Some rows ->
  ~ blank q ->
  wildcard_free (trim q) ->
  selects (mentions (trim q)) category_name_le rows (searchMenuItems q db).
Proof.
  intros H B W. unfold searchMenuItems.
  assert (E1 : isEmpty (trim q) = false).
  { unfold blank in B. destruct (trim q); [contradiction | reflexivity]. }
  assert (E0 : isEmpty q = false).
  { destruct q; [contradiction B; reflexivity | reflexivity]. }
  rewrite E0, E1. simpl orb. cbv iota.
  apply selects_ok.
  eapply selects_ext; [|apply select_by_category_name, H].
  intros r. unfold mentions, searchTerm.
  rewrite !(like_contains (trim q) _ W). reflexivity.
Qed.

Lemma search_is_containment_of_trimmed_query_witness :
  selects (mentions (trim (lit " lemon "))) category_name_le Sample.rows
    (searchMenuItems (lit " lemon ") Sample.store).
Proof.
  apply (@search_is_containment_of_trimmed_query
           Sample.store Sample.rows (lit " lemon ")).
  - reflexivity.
  - discriminate.
  - vm_compute. repeat constructor; discriminate.
Defined.

End Queries.

(* ===================================================================== *)
(** ** The menu store: schema creation and replacement *)
(* ===================================================================== *)

Section Writes.

Import Database.

(** A plain CREATE TABLE would fail on the second call; IF NOT EXISTS is
    what makes [createTable] repeatable. *)
Example create_table_twice_without_guard :
  Sql.create_table false Sample.empty = Err Sql.already_exists.
Proof. reflexivity. Qed.

(** C8.  For every store, two calls of [createTable] in a row both succeed,
    the second changes nothing, and rows present before the calls are
    present, unaltered, after each of them. *)
Theorem createTable_idempotent (db : Store) :
  let first := createTable db in
  let second := createTable (snd first) in
  fst first = Ok tt
  /\ fst second = Ok tt
  /\ snd second = snd first
  /\ sqlite_sequence (snd first) = sqlite_sequence db
  /\ (forall rows,
        menuitems db = Some rows ->
        snd first = db /\ snd second = db).
Proof.
  unfold createTable, Sql.create_table.
  destruct db as [[rows|] seq]; simpl.
  - repeat split; reflexivity.
  - repeat split; try reflexivity; discriminate.
Qed.

(** *** Inserting *)

Lemma place_perm (r : MenuItem) (rows : list MenuItem) :
  Permutation (Sql.place r rows) (r :: rows).
Proof.
  induction rows as [|r' rows IH]; simpl; [reflexivity|].
  destruct (Sql.rowid r <? Sql.rowid r')%Z; [reflexivity|].
  rewrite IH. apply perm_swap.
Qed.

Lemma with_id_stores (k : Z) (item : MenuItem) :
  (forall k', id item = Some k' -> k' = k) ->
  stores item (Sql.with_id k item).
Proof.
  intros H. unfold stores. simpl.
  repeat split; try reflexivity.
  - exists k. reflexivity.
  - intros k' E. f_equal. symmetry. apply H, E.
Qed.

Lemma run_statement_ok fault k stmt (db db' : Store) :
  run_statement fault k stmt db = Ok db' -> stmt db = Ok db'.
Proof. unfold run_statement. destruct (faulty fault k); congruence. Qed.

Lemma faulty_true (fault : option nat) (k : nat) :
  faulty fault k = true <-> fault = Some k.
Proof.
  unfold faulty. destruct fault as [j|].
  - rewrite Nat.eqb_eq. split; congruence.
  - split; discriminate.
Qed.

Lemma has_rowid_place (k : Z) (r : MenuItem) (rows : list MenuItem) :
  Sql.has_rowid k (Sql.place r rows) = Sql.has_rowid k (r :: rows).
Proof.
  induction rows as [|r' rows IH]; [reflexivity|].
  simpl Sql.place. destruct (Sql.rowid r <? Sql.rowid r')%Z; [reflexivity|].
  change (Sql.has_rowid k (r' :: Sql.place r rows))
    with (match id r' with Some k' => (k =? k')%Z | None => false end
          || Sql.has_rowid k (Sql.place r rows)).
  rewrite IH. simpl. rewrite !orb_assoc. f_equal. apply orb_comm.
Qed.

Lemma max_rowid_place (r : MenuItem) (rows : list MenuItem) :
  Sql.max_rowid (Sql.place r rows)
  = Z.max (Sql.rowid r) (Sql.max_rowid rows).
Proof.
  induction rows as [|r' rows IH]; simpl; [reflexivity|].
  destruct (Sql.rowid r <? Sql.rowid r')%Z; simpl; [reflexivity|].
  rewrite IH. lia.
Qed.

Lemma assign_ids_stores (A : list MenuItem) :
  forall (m : Z) (used ids : list Z),
    assign_ids m used A = Some ids -> Forall2 stores A (rows_of ids A).
Proof.
  induction A as [|item A IH]; intros m used ids; simpl.
  - intros E. inversion E. constructor.
  - destruct (id item) as [k|] eqn:Ei.
    + destruct (Sql.is_int64 k && negb (existsb (Z.eqb k) used));
        [|discriminate].
      destruct (assign_ids (Z.max m k) (k :: used) A) as [ids'|] eqn:E';
        [|discriminate].
      intros E. inversion E; subst. simpl. constructor; [|eapply IH, E'].
      apply with_id_stores. rewrite Ei. congruence.
    + destruct (m <? Sql.MAX_ROWID)%Z; [|discriminate].
      destruct (assign_ids (m + 1) ((m + 1)%Z :: used) A) as [ids'|] eqn:E';
        [|discriminate].
      intros E. inversion E; subst. simpl. constructor; [|eapply IH, E'].
      apply with_id_stores. rewrite Ei. discriminate.
Qed.

(** What the loop of inserts does, statement by statement. *)
Lemma insert_each_assigns fault (A : list MenuItem) :
  forall (k : nat) (db : Store) (rows : list MenuItem) (used : list Z),
    menuitems db = Some rows ->
    (forall z, Sql.has_rowid z rows = existsb (Z.eqb z) used) ->
    match insert_each fault k A db with
    | Ok db' =>
        (forall j, fault = Some j -> (j < k \/ k + List.length A < j)%nat)
        /\ exists ids rows',
             assign_ids (Z.max (sqlite_sequence db) (Sql.max_rowid rows))
               used A = Some ids
             /\ menuitems db' = Some rows'
             /\ Permutation rows' (rev (rows_of ids A) ++ rows)
    | Err _ =>
        (exists j, fault = Some j /\ (k <= j <= k + List.length A)%nat)
        \/ assign_ids (Z.max (sqlite_sequence db) (Sql.max_rowid rows))
             used A = None
    end.
Proof.
  induction A as [|item A IH]; intros k db rows used H U;
    cbn [insert_each assign_ids List.length]; unfold run_statement.
  - destruct (faulty fault k) eqn:F.
    + apply faulty_true in F. left. exists k. split; [exact F | lia].
    + split.
      * intros j E. assert (j <> k).
        { intros ->. apply faulty_true in E. congruence. }
        lia.
      * exists [], rows. repeat split; [exact H | reflexivity].
  - destruct (faulty fault k) eqn:F.
    { apply faulty_true in F. left. exists k. split; [exact F | lia]. }
    assert (Fk : forall j, fault = Some j -> j <> k).
    { intros j E ->. apply faulty_true in E. congruence. }
    unfold Sql.insert. rewrite H.
    destruct (id item) as [i|] eqn:Ei.
    + rewrite (U i).
      destruct (Sql.is_int64 i); cbn [negb andb]; [|right; reflexivity].
      destruct (existsb (Z.eqb i) used) eqn:Ex; cbn [negb];
        [right; reflexivity|].
      specialize (IH (S k)
                    {| menuitems := Some (Sql.place (Sql.with_id i item) rows);
                       sqlite_sequence := Z.max i (sqlite_sequence db) |}
                    (Sql.place (Sql.with_id i item) rows) (i :: used) eq_refl).
      cbn [sqlite_sequence] in IH.
      rewrite max_rowid_place in IH.
      change (Sql.rowid (Sql.with_id i item)) with i in IH.
      replace (Z.max (Z.max i (sqlite_sequence db))
                 (Z.max i (Sql.max_rowid rows)))
        with (Z.max (Z.max (sqlite_sequence db) (Sql.max_rowid rows)) i)
        in IH by lia.
      assert (U' : forall z,
                 Sql.has_rowid z (Sql.place (Sql.with_id i item) rows)
                 = existsb (Z.eqb z) (i :: used)).
      { intros z. rewrite has_rowid_place. simpl. rewrite (U z).
        reflexivity. }
      specialize (IH U').
      destruct (insert_each fault (S k) A _) as [db'|m].
      * destruct IH as (Hf & ids & rows' & E & H' & P). split.
        -- intros j Ej. specialize (Hf j Ej). specialize (Fk j Ej). lia.
        -- exists (i :: ids), rows'. rewrite E. simpl.
           repeat split; [exact H'|].
           rewrite P, <- app_assoc. simpl.
           apply Permutation_app_head, place_perm.
      * destruct IH as [(j & Ej & Hj)|E].
        -- left. exists j. split; [exact Ej | lia].
        -- right. rewrite E. reflexivity.
    + set (m := Z.max (sqlite_sequence db) (Sql.max_rowid rows)).
      destruct (Z.leb_spec Sql.MAX_ROWID m) as [Hm|Hm];
        destruct (Z.ltb_spec m Sql.MAX_ROWID) as [Hm'|Hm']; try lia;
        [right; reflexivity|].
      specialize (IH (S k)
                    {| menuitems :=
                         Some (Sql.place (Sql.with_id (m + 1) item) rows);
                       sqlite_sequence := (m + 1)%Z |}
                    (Sql.place (Sql.with_id (m + 1) item) rows)
                    ((m + 1)%Z :: used) eq_refl).
      cbn [sqlite_sequence] in IH.
      rewrite max_rowid_place in IH.
      change (Sql.rowid (Sql.with_id (m + 1) item)) with (m + 1)%Z in IH.
      replace (Z.max (m + 1) (Z.max (m + 1) (Sql.max_rowid rows)))
        with (m + 1)%Z in IH by (unfold m; lia).
      assert (U' : forall z,
                 Sql.has_rowid z (Sql.place (Sql.with_id (m + 1) item) rows)
                 = existsb (Z.eqb z) ((m + 1)%Z :: used)).
      { intros z. rewrite has_rowid_place. simpl. rewrite (U z).
        reflexivity. }
      specialize (IH U').
      destruct (insert_each fault (S k) A _) as [db'|e].
      * destruct IH as (Hf & ids & rows' & E & H' & P). split.
        -- intros j Ej. specialize (Hf j Ej). specialize (Fk j Ej). lia.
        -- exists ((m + 1)%Z :: ids), rows'. rewrite E. simpl.
           repeat split; [exact H'|].
           rewrite P, <- app_assoc. simpl.
           apply Permutation_app_head, place_perm.
      * destruct IH as [(j & Ej & Hj)|E].
        -- left. exists j. split; [exact Ej | lia].
        -- right. rewrite E. reflexivity.
Qed.

(** The outcome of a replacement, in full. *)
Lemma saveMenuItems_outcome
    (fault : option nat) (A : list MenuItem) (db : Store) :
  (fst (saveMenuItems fault A db) = Ok tt <-> accepted fault A db)
  /\ match saveMenuItems fault A db with
     | (Ok _, db') =>
         exists ids rows,
           assign_ids (Z.max (sqlite_sequence db) 0) [] A = Some ids
           /\ getMenuItems db' = Ok rows
           /\ Permutation rows (rows_of ids A)
           /\ holds_exactly A rows
     | (Err _, db') =>
         db' = db
         /\ getMenuItems db' = getMenuItems db
         /\ (forall c, filterByCategory c db' = filterByCategory c db)
         /\ (forall q, searchMenuItems q db' = searchMenuItems q db)
     end.
Proof.
  unfold saveMenuItems, withTransactionAsync, run_statement, accepted.
  destruct (faulty fault 0) eqn:F0.
  { apply faulty_true in F0. split; [|repeat split].
    split; [discriminate|]. intros (_ & Hf & _). specialize (Hf 0%nat F0). lia. }
  unfold Sql.delete_all.
  destruct (menuitems db) as [old|] eqn:T.
  2:{ split; [|repeat split]. split; [discriminate|].
      intros (Hn & _). congruence. }
  pose proof (insert_each_assigns fault A 1%nat
                {| menuitems := Some []; sqlite_sequence := sqlite_sequence db |}
                [] [] eq_refl (fun z => eq_refl)) as I.
  cbn [sqlite_sequence Sql.max_rowid fold_right] in I.
  destruct (insert_each fault 1 A _) as [db'|m].
  - destruct I as (Hf & ids & rows & E & H' & P).
    rewrite app_nil_r in P.
    split.
    + split; [|reflexivity]. intros _. split; [discriminate|]. split.
      * intros j Ej. destruct (Hf j Ej) as [Hj|Hj]; [|lia].
        assert (j = 0%nat) by lia. subst j.
        apply faulty_true in Ej. congruence.
      * rewrite E. discriminate.
    + exists ids, rows. split; [exact E|]. split.
      * unfold getMenuItems, Sql.select. rewrite H', filter_all. reflexivity.
      * assert (P' : Permutation rows (rows_of ids A)).
        { rewrite P. symmetry. apply Permutation_rev. }
        split; [exact P'|].
        exists (rows_of ids A). split; [|exact P'].
        eapply assign_ids_stores, E.
  - split; [|repeat split].
    split; [discriminate|]. intros (_ & Hf & Ha).
    destruct I as [(j & Ej & Hj)|E]; [|contradiction].
    specialize (Hf j Ej). lia.
Qed.

(** C1.  For every store, every sequence of items [A] and every point at
    which the engine may fail.  [saveMenuItems(A)] succeeds exactly when
    the table exists, no engine fault strikes a statement of the
    transaction, and every item can be given an id (a supplied id is a
    64-bit integer not given twice in [A]; ids are left for the items
    without one).  When it succeeds, the old rows are gone and the table
    holds one row per item of [A] and nothing else: the items were given
    their ids in the order of [A], each row has its item's columns and,
    where the item supplies an id, that id, and [getMenuItems()] returns
    exactly those rows.  When it fails, at whatever statement, the store is
    the store before the call, and every read returns what it returned
    before. *)
Theorem saveMenuItems_all_or_nothing
    (fault : option nat) (A : list MenuItem) (db : Store) :
  (fst (saveMenuItems fault A db) = Ok tt <-> accepted fault A db)
  /\ match saveMenuItems fault A db with
     | (Ok _, db') =>
         exists ids rows,
           assign_ids (Z.max (sqlite_sequence db) 0) [] A = Some ids
           /\ getMenuItems db' = Ok rows
           /\ Permutation rows (rows_of ids A)
           /\ holds_exactly A rows
     | (Err _, db') =>
         db' = db
         /\ getMenuItems db' = getMenuItems db
         /\ (forall c, filterByCategory c db' = filterByCategory c db)
         /\ (forall q, searchMenuItems q db' = searchMenuItems q db)
     end.
Proof. apply saveMenuItems_outcome. Qed.

(** A payload that mixes items with and without ids: accepted, the ids
    are given in the order of the payload. *)
Example saveMenuItems_mixed_payload :
  let A := [Sample.item None "Hummus" "Chickpea dip" "starters";
            Sample.item (Some 9%Z) "Baklava" "Filo and nuts" "desserts";
            Sample.item None "Falafel" "Fried chickpeas" "starters"] in
  accepted None A Sample.store
  /\ assign_ids 3 [] A = Some [4; 9; 10]%Z
  /\ fst (saveMenuItems None A Sample.store) = Ok tt
  /\ getMenuItems (snd (saveMenuItems None A Sample.store))
     = Ok (rows_of [4; 9; 10]%Z A).
Proof.
  repeat split; try reflexivity; discriminate.
Qed.

(** A failure after the DELETE and two of three inserts leaves the three
    old rows in place; so does a duplicate id. *)
Example saveMenuItems_rolls_back :
  let A := [Sample.item None "Hummus" "Chickpea dip" "starters";
            Sample.item None "Baklava" "Filo and nuts" "desserts";
            Sample.item None "Falafel" "Fried chickpeas" "starters"] in
  saveMenuItems (Some 3%nat) A Sample.store
  = (Err "Failed to save menu items: disk I/O error"%string, Sample.store)
  /\ saveMenuItems None [Sample.greek_salad; Sample.greek_salad] Sample.store
     = (Err "Failed to save menu items: UNIQUE constraint failed: menuitems.id"%string,
        Sample.store)
  /\ exists db', saveMenuItems None A Sample.store = (Ok tt, db')
                 /\ option_map (map name) (menuitems db')
                    = Some (map lit ["Hummus"; "Baklava"; "Falafel"]%string)
                 /\ option_map (map id) (menuitems db')
                    = Some [Some 4; Some 5; Some 6]%Z.
Proof.
  split; [reflexivity|]. split; [reflexivity|].
  eexists. split; [reflexivity|]. split; reflexivity.
Qed.

End Writes.

(* ===================================================================== *)
(** ** Grouping into sections *)
(* ===================================================================== *)

Section Grouping.

Import Home.

Lemma firstSeen_In (k : text) (l : list text) : In k (firstSeen l) <-> In k l.
Proof.
  induction l as [|a l IH]; simpl; [tauto|].
  rewrite filter_In, IH, negb_true_iff, text_eqb_neq.
  destruct (Text.eqb k a) eqn:E.
  - apply text_eqb_eq in E. subst. tauto.
  - apply text_eqb_neq in E. split; [tauto|].
    intros [->|H]; [tauto|]. right. split; assumption.
Qed.

Lemma firstSeen_NoDup (l : list text) : NoDup (firstSeen l).
Proof.
  induction l as [|a l IH]; simpl; constructor.
  - rewrite filter_In, negb_true_iff, text_eqb_neq. tauto.
  - apply NoDup_filter, IH.
Qed.

Lemma firstSeen_snoc (l : list text) (k : text) :
  firstSeen (l ++ [k])
  = if Text.mem k l then firstSeen l else firstSeen l ++ [k].
Proof.
  induction l as [|a l IH]; simpl; [reflexivity|].
  rewrite IH. unfold Text.mem in *. simpl.
  destruct (existsb (Text.eqb k) l); [rewrite orb_true_r; reflexivity|].
  rewrite orb_false_r, filter_app. simpl.
  destruct (Text.eqb k a); simpl; [rewrite app_nil_r|]; reflexivity.
Qed.

Lemma in_category_snoc (k : text) (p : list MenuItem) (item : MenuItem) :
  in_category k (p ++ [item])
  = in_category k p ++ (if Text.eqb (category item) k then [item] else []).
Proof. unfold in_category. rewrite filter_app. reflexivity. Qed.

Lemma in_category_none (k : text) (p : list MenuItem) :
  ~ In k (map category p) -> in_category k p = [].
Proof.
  induction p as [|x p IH]; simpl; [reflexivity|].
  intros H. destruct (Text.eqb (category x) k) eqn:E.
  - apply text_eqb_eq in E. tauto.
  - apply IH. tauto.
Qed.

Lemma hasOwn_grouped (k : text) (p : list MenuItem) (ks : list text) :
  Js.hasOwn k (grouped_after p ks) = Text.mem k ks.
Proof.
  induction ks as [|k' ks IH]; simpl; [reflexivity|].
  rewrite IH. reflexivity.
Qed.

Lemma get_grouped (k : text) (p : list MenuItem) (ks : list text) :
  In k ks -> Js.get k (grouped_after p ks) = in_category k p.
Proof.
  induction ks as [|k' ks IH]; simpl; [tauto|].
  intros H. destruct (Text.eqb k k') eqn:E.
  - apply text_eqb_eq in E. subst. reflexivity.
  - apply IH. destruct H as [->|H]; [|assumption].
    rewrite text_eqb_refl in E. discriminate.
Qed.

Lemma push_grouped (p : list MenuItem) (item : MenuItem) (ks : list text) :
  NoDup ks ->
  Js.push (category item) item (grouped_after p ks)
  = grouped_after (p ++ [item]) ks.
Proof.
  induction 1 as [|k ks Hk Hnd IH]; simpl; [reflexivity|].
  rewrite in_category_snoc.
  destruct (Text.eqb (category item) k) eqn:E.
  - f_equal. apply text_eqb_eq in E.
    unfold grouped_after. apply map_ext_in. intros k' Hk'.
    rewrite in_category_snoc.
    destruct (Text.eqb (category item) k') eqn:E'.
    + apply text_eqb_eq in E'. congruence.
    + rewrite app_nil_r. reflexivity.
  - rewrite app_nil_r, IH. reflexivity.
Qed.

Lemma group_item_grouped (p : list MenuItem) (item : MenuItem) :
  Js.inherited (category item) = false ->
  group_item (grouped_after p (firstSeen (map category p))) item
  = Ok (grouped_after (p ++ [item])
          (firstSeen (map category (p ++ [item])))).
Proof.
  intros Hi. unfold group_item.
  rewrite hasOwn_grouped, map_app. simpl map.
  rewrite firstSeen_snoc.
  destruct (Text.mem (category item) (firstSeen (map category p))) eqn:M.
  - assert (M' : Text.mem (category item) (map category p) = true)
      by (apply mem_In, firstSeen_In, mem_In, M).
    rewrite M'. f_equal. apply push_grouped, firstSeen_NoDup.
  - assert (M' : Text.mem (category item) (map category p) = false).
    { destruct (Text.mem (category item) (map category p)) eqn:M';
        [|reflexivity].
      apply mem_In, firstSeen_In, mem_In in M'. congruence. }
    rewrite M', Hi. f_equal.
    assert (N : ~ In (category item) (map category p)).
    { intros H. apply mem_In in H. congruence. }
    replace (Js.define (category item)
               (grouped_after p (firstSeen (map category p))))
      with (grouped_after p (firstSeen (map category p) ++ [category item])).
    + apply push_grouped.
      pose proof (firstSeen_NoDup (map category p ++ [category item])) as ND.
      rewrite firstSeen_snoc, M' in ND. exact ND.
    + unfold grouped_after, Js.define. rewrite map_app. simpl.
      rewrite (in_category_none _ _ N). reflexivity.
Qed.

Lemma forEach_app (l1 l2 : list MenuItem) (g : Js.Object_) :
  forEach (l1 ++ l2) g
  = match forEach l1 g with
    | Ok g' => forEach l2 g'
    | Err m => Err m
    end.
Proof.
  revert g; induction l1 as [|x l1 IH]; intros g; simpl; [reflexivity|].
  destruct (group_item g x); [apply IH | reflexivity].
Qed.

Lemma forEach_grouped (items : list MenuItem) :
  Forall (fun item => Js.inherited (category item) = false) items ->
  forEach items []
  = Ok (grouped_after items (firstSeen (map category items))).
Proof.
  induction items as [|item p IH] using rev_ind; intros F; [reflexivity|].
  apply Forall_app in F. destruct F as [Fp Fi].
  inversion Fi; subst.
  rewrite forEach_app, (IH Fp). simpl.
  rewrite group_item_grouped by assumption. reflexivity.
Qed.

Lemma insert_index_In (k x : text) (l : list text) :
  In k (Js.insert_index x l) <-> k = x \/ In k l.
Proof.
  induction l as [|y l IH]; simpl; [intuition congruence|].
  destruct (Js.indexValue x <=? Js.indexValue y)%N; simpl;
    [intuition congruence|].
  rewrite IH. intuition congruence.
Qed.

Lemma key_order_In (k : text) (ks : list text) :
  In k (Js.key_order ks) -> In k ks.
Proof.
  unfold Js.key_order. rewrite in_app_iff, filter_In.
  intros [H | [H _]]; [|exact H].
  revert H. induction ks as [|x ks IH]; simpl; [tauto|].
  destruct (Js.isArrayIndex x); simpl; [|tauto].
  rewrite insert_index_In. intros [->|H]; auto.
Qed.

Lemma key_order_without_indices (ks : list text) :
  Forall (fun k => Js.isArrayIndex k = false) ks -> Js.key_order ks = ks.
Proof.
  intros F. unfold Js.key_order.
  assert (E1 : filter Js.isArrayIndex ks = []).
  { induction F as [|k ks E _ IH]; simpl; [reflexivity|].
    rewrite E. exact IH. }
  assert (E2 : filter (fun k => negb (Js.isArrayIndex k)) ks = ks).
  { induction F as [|k ks E _ IH]; simpl; [reflexivity|].
    rewrite E. simpl. f_equal. apply IH.
    simpl in E1. rewrite E in E1. exact E1. }
  rewrite E1, E2. reflexivity.
Qed.

Lemma toSections_grouped (items : list MenuItem) :
  Forall (fun item => Js.inherited (category item) = false) items ->
  toSections items
  = Ok (map (section_for items)
          (Js.key_order (firstSeen (map category items)))).
Proof.
  intros F. unfold toSections.
  destruct items as [|x items]; [reflexivity|].
  rewrite (forEach_grouped _ F). f_equal.
  unfold Js.Object_keys, grouped_after. rewrite map_map. simpl fst.
  rewrite map_id.
  apply map_ext_in. intros k Hk. unfold section_for. f_equal.
  apply (get_grouped k (x :: items)), key_order_In, Hk.
Qed.

Lemma toSections_first_seen (items : list MenuItem) :
  Forall (fun item => Js.inherited (category item) = false) items ->
  Forall (fun item => Js.isArrayIndex (category item) = false) items ->
  toSections items = Ok (first_seen_sections items).
Proof.
  intros F I. rewrite (toSections_grouped items F).
  unfold first_seen_sections. rewrite key_order_without_indices; [reflexivity|].
  apply Forall_forall. intros k Hk.
  apply firstSeen_In, in_map_iff in Hk. destruct Hk as (item & <- & Hin).
  rewrite Forall_forall in I. apply I, Hin.
Qed.

End Grouping.

Section GroupingClaims.

Import Home.

(** C7 as stated fails: a category spelled like an array index is
    enumerated by [Object.keys] before the others, whatever the order of
    first appearance. *)
Lemma index_like_category_comes_first :
  let items := [Sample.pasta;
                Sample.item (Some 4%Z) "Olives" "Marinated" "1"] in
  toSections items <> Ok (first_seen_sections items)
  /\ map title (first_seen_sections items) = [lit "mains"; lit "1"]
  /\ exists secs,
       toSections items = Ok secs /\ map title secs = [lit "1"; lit "mains"].
Proof.
  split; [vm_compute; discriminate|].
  split; [reflexivity|].
  eexists. split; reflexivity.
Qed.

(** A category named like a property every object inherits makes the
    grouping throw. *)
Example inherited_category_throws :
  toSections [Sample.item (Some 1%Z) "Soup" "Of the day" "constructor"]
  = Err not_a_function.
Proof. reflexivity. Qed.

(** C7, amended.  For every result sequence none of whose categories is the
    name of a property inherited from [Object.prototype], the grouping
    yields one section per distinct category, each holding the items of
    that category in the order of the sequence; sections whose title is an
    array-index string come first, in ascending numeric order, and the
    other sections follow in order of first appearance; so when no category
    is an array-index string the sections are in first-seen order.  The
    empty sequence yields zero sections. *)
Theorem toSections_groups_by_category (items : list MenuItem) :
  Forall (fun item => Js.inherited (category item) = false) items ->
  toSections items
  = Ok (map (section_for items)
          (Js.key_order (firstSeen (map category items))))
  /\ (Forall (fun item => Js.isArrayIndex (category item) = false) items ->
      toSections items = Ok (first_seen_sections items))
  /\ toSections [] = Ok [].
Proof.
  intros F. split; [apply toSections_grouped, F|]. split; [|reflexivity].
  intros I. apply toSections_first_seen; assumption.
Qed.

Lemma toSections_groups_by_category_witness :
  toSections Sample.payload
  = Ok (map (section_for Sample.payload)
          (Js.key_order (firstSeen (map category Sample.payload))))
  /\ toSections Sample.payload = Ok (first_seen_sections Sample.payload).
Proof.
  destruct (toSections_groups_by_category Sample.payload) as (H1 & H2 & _).
  - repeat constructor.
  - split; [exact H1 | apply H2; repeat constructor].
Defined.

End GroupingClaims.

(* ===================================================================== *)
(** ** Initialization and queries *)
(* ===================================================================== *)

Section Controller.

Import Home.

Ltac run_async :=
  unfold initializeApp, queryEffect, loadMenuByCategory, transform,
    try_finally, try_catch, bind, ret, createTable, getMenuItemsFromDB,
    fetchMenuFromAPI, saveMenuItems, filterByCategory, searchMenuItems,
    setSections, setLoading, setError, setIsInitialized, setState,
    record, with_db;
  cbn [db remote fault state calls fst snd sections loading error
       isInitialized].

Lemma createTable_on_empty (d : Store) :
  empty_store d ->
  Database.createTable d
  = (Ok tt, {| menuitems := Some []; sqlite_sequence := sqlite_sequence d |}).
Proof.
  unfold empty_store, Database.createTable, Sql.create_table.
  destruct d as [[[|r rows]|] seq]; simpl; intros H;
    [reflexivity | contradiction | reflexivity].
Qed.

(** C3 as stated fails: with an empty store and a payload without [menu],
    nothing is written, and no error is raised either; the component ends
    initialized, showing an empty list. *)
Lemma payload_without_menu_is_accepted :
  let w := Sample.world Sample.empty (Ok WithoutMenu) in
  let w' := snd (initializeApp w) in
  empty_store (db w)
  /\ fst (initializeApp w) = Ok tt
  /\ db w' = db w
  /\ error (state w') = None
  /\ isInitialized (state w') = true
  /\ sections (state w') = [].
Proof. repeat split. Qed.

(** C3, amended.  When the store is empty and the remote source answers
    with a falsy value or with a value that has no [menu], [initializeApp]
    writes nothing to the store ([saveMenuItems] is not called, the table
    stays empty) and raises no error: it completes, leaves [error]
    untouched, shows zero sections, and marks the component initialized
    and no longer loading. *)
Theorem payload_without_menu_no_write_no_error (w : World) :
  empty_store (db w) ->
  remote w = Ok Falsy \/ remote w = Ok WithoutMenu ->
  let w' := snd (initializeApp w) in
  fst (initializeApp w) = Ok tt
  /\ calls w' = calls w ++ [CreateTable; GetMenuItems; Fetch]
  /\ menuitems (db w') = Some []
  /\ sqlite_sequence (db w') = sqlite_sequence (db w)
  /\ error (state w') = error (state w)
  /\ sections (state w') = []
  /\ isInitialized (state w') = true
  /\ loading (state w') = false.
Proof.
  intros E R. run_async.
  rewrite (createTable_on_empty (db w) E). cbn.
  destruct R as [R|R]; rewrite R; cbn; rewrite <- !app_assoc;
    repeat split.
Qed.

Lemma payload_without_menu_no_write_no_error_witness :
  let w := Sample.world Sample.fresh (Ok WithoutMenu) in
  let w' := snd (initializeApp w) in
  fst (initializeApp w) = Ok tt
  /\ calls w' = calls w ++ [CreateTable; GetMenuItems; Fetch]
  /\ menuitems (db w') = Some []
  /\ sqlite_sequence (db w') = sqlite_sequence (db w)
  /\ error (state w') = error (state w)
  /\ sections (state w') = []
  /\ isInitialized (state w') = true
  /\ loading (state w') = false.
Proof.
  apply (payload_without_menu_no_write_no_error
           (Sample.world Sample.fresh (Ok WithoutMenu))).
  - exact I.
  - right. reflexivity.
Defined.

(** *** Calls made by the query effect *)

Lemma loadMenuByCategory_from_store (c : text) (w : World) :
  calls (snd (loadMenuByCategory c None w)) = calls w ++ [FilterByCategory c].
Proof.
  run_async.
  destruct (Database.filterByCategory c (db w)) as [out|m]; cbn;
    [destruct (toSections out); reflexivity | reflexivity].
Qed.

Lemma loadMenuByCategory_existing (c : text) (items : list MenuItem)
    (secs : list MenuSection) (w : World) :
  toSections items = Ok secs ->
  loadMenuByCategory c (Some items) w
  = (Ok tt,
     {| db := db w; remote := remote w; fault := fault w;
        state := {| sections := secs; loading := false;
                    error := error (state w);
                    isInitialized := isInitialized (state w) |};
        calls := calls w |}).
Proof. intros T. run_async. rewrite T. reflexivity. Qed.

Lemma queryEffect_calls (c q : text) (w : World) :
  calls (snd (queryEffect c q w))
  = calls w
    ++ (if isInitialized (state w) then
          if isEmpty (trim q) then [FilterByCategory c]
          else [SearchMenuItems q]
        else []).
Proof.
  unfold queryEffect.
  destruct (isInitialized (state w)); [|cbn; rewrite app_nil_r; reflexivity].
  destruct (isEmpty (trim q)); cbn [negb].
  - apply loadMenuByCategory_from_store.
  - run_async.
    destruct (Database.searchMenuItems q (db w)) as [out|m]; cbn;
      [destruct (toSections out); reflexivity | reflexivity].
Qed.

Lemma queryEffect_fetches (c q : text) (w : World) :
  fetches (calls (snd (queryEffect c q w))) = fetches (calls w).
Proof.
  rewrite queryEffect_calls. unfold fetches. rewrite filter_app.
  destruct (isInitialized (state w)); [destruct (isEmpty (trim q))|];
    simpl; apply app_nil_r.
Qed.

Lemma serve_fetches (queries : list (text * text)) (w : World) :
  fetches (calls (serve queries w)) = fetches (calls w).
Proof.
  revert w; induction queries as [|[c q] queries IH]; intros w; simpl;
    [reflexivity|].
  rewrite IH. apply queryEffect_fetches.
Qed.

(** C6.  When the store holds at least one row at activation,
    [initializeApp] creates the table (a no-op), reads the store, and makes
    no other call: in particular it does not call the remote source; and
    however many queries the effect then serves, each is answered by the
    store, so no fetch is ever added. *)
Theorem nonempty_store_never_fetches
    (w : World) (rows : list MenuItem) (queries : list (text * text)) :
  menuitems (db w) = Some rows ->
  rows <> [] ->
  calls (snd (initializeApp w)) = calls w ++ [CreateTable; GetMenuItems]
  /\ db (snd (initializeApp w)) = db w
  /\ fetches (calls (serve queries (snd (initializeApp w))))
     = fetches (calls w).
Proof.
  intros H N.
  assert (C : calls (snd (initializeApp w))
              = calls w ++ [CreateTable; GetMenuItems]
              /\ db (snd (initializeApp w)) = db w).
  { run_async.
    unfold Database.createTable, Sql.create_table,
      Database.getMenuItems, Sql.select.
    rewrite H. cbn. rewrite H. rewrite filter_all.
    destruct rows as [|r rows']; [contradiction N; reflexivity|].
    destruct (toSections (r :: rows')); cbn; rewrite <- !app_assoc;
      split; reflexivity. }
  destruct C as [C D]. split; [exact C|]. split; [exact D|].
  rewrite serve_fetches, C. unfold fetches.
  rewrite filter_app. simpl. apply app_nil_r.
Qed.

Lemma nonempty_store_never_fetches_witness :
  let w := Sample.world Sample.store (Err "Network request failed"%string) in
  let queries := [(lit "mains", lit ""); (lit "all", lit "lemon")] in
  calls (snd (initializeApp w)) = calls w ++ [CreateTable; GetMenuItems]
  /\ db (snd (initializeApp w)) = db w
  /\ fetches (calls (serve queries (snd (initializeApp w))))
     = fetches (calls w).
Proof.
  apply (nonempty_store_never_fetches
           (Sample.world Sample.store (Err "Network request failed"%string))
           Sample.rows).
  - reflexivity.
  - discriminate.
Defined.



(** The order shown on the first run is the payload's (mains, starters,
    desserts here); the same rows asked of the store by the next query come
    grouped in (category, name) order. *)
Example first_view_differs_from_store_order :
  let w := Sample.world Sample.fresh (Ok (WithMenu Sample.payload)) in
  let w1 := snd (initializeApp w) in
  let w2 := snd (queryEffect Database.all (lit "") w1) in
  map title (sections (state w1))
  = [lit "mains"; lit "starters"; lit "desserts"]
  /\ map (fun s => map name (data s)) (sections (state w1))
     = [[lit "Pasta"]; [lit "Greek Salad"; lit "Bruschetta"];
        [lit "Lemon Cake"]]
  /\ map title (sections (state w2))
     = [lit "desserts"; lit "mains"; lit "starters"]
  /\ map (fun s => map name (data s)) (sections (state w2))
     = [[lit "Lemon Cake"]; [lit "Pasta"];
        [lit "Bruschetta"; lit "Greek Salad"]].
Proof. repeat split. Qed.

End Controller.

(* ===================================================================== *)
(** ** More about the menu store *)
(* ===================================================================== *)

Section StoreIds.

Import Database.
Local Open Scope Z_scope.

Lemma max_rowid_bound (rows : list MenuItem) :
  Forall (fun r => Sql.rowid r <= Sql.max_rowid rows) rows
  /\ 0 <= Sql.max_rowid rows.
Proof.
  induction rows as [|r rows [IH1 IH2]]; simpl; [split; [constructor | lia]|].
  split; [|lia].
  constructor; [lia|].
  eapply Forall_impl; [|exact IH1]. simpl. intros; lia.
Qed.


Lemma rowid_with_id (k : Z) (item : MenuItem) :
  Sql.rowid (Sql.with_id k item) = k.
Proof. reflexivity. Qed.





(** Once the largest id there is has been used, an item without id is
    refused and the store keeps its rows. *)
Example saveMenuItems_out_of_ids :
  let db := {| menuitems := Some Sample.rows;
               sqlite_sequence := Sql.MAX_ROWID |} in
  saveMenuItems None Sample.payload db
  = (Err "Failed to save menu items: database or disk is full"%string, db).
Proof. reflexivity. Qed.

(** *** The primary key *)

Lemma has_rowid_false (k : Z) (rows : list MenuItem) :
  Forall (fun r => id r <> None) rows ->
  Sql.has_rowid k rows = false ->
  Forall (fun r => Sql.rowid r <> k) rows.
Proof.
  induction 1 as [|r rows Hr _ IH]; simpl; [constructor|].
  intros H. apply orb_false_iff in H. destruct H as [H1 H2].
  constructor; [|apply IH, H2].
  unfold Sql.rowid. destruct (id r) as [k'|]; [|congruence].
  apply Z.eqb_neq in H1. congruence.
Qed.

Lemma place_keyed (r : MenuItem) (rows : list MenuItem) :
  id r <> None ->
  Forall (fun r' => Sql.rowid r' <> Sql.rowid r) rows ->
  keyed rows -> keyed (Sql.place r rows).
Proof.
  intros Hr Hne [Hid Hs]. split.
  - eapply Permutation_Forall; [symmetry; apply place_perm|].
    constructor; assumption.
  - induction Hs as [|r' rows Hs IH Hall]; simpl.
    + constructor; constructor.
    + inversion Hne as [|? ? Hne1 Hne']; subst.
      inversion Hid as [|? ? Hid1 Hid']; subst.
      destruct (Z.ltb_spec (Sql.rowid r) (Sql.rowid r')).
      * constructor; [constructor; assumption|].
        constructor; [assumption|].
        eapply Forall_impl; [|exact Hall]. simpl. intros; lia.
      * constructor; [apply IH; assumption|].
        eapply Permutation_Forall; [symmetry; apply place_perm|].
        constructor; [lia | assumption].
Qed.

Lemma insert_keyed (item : MenuItem) (db db' : Store) (rows : list MenuItem) :
  menuitems db = Some rows ->
  keyed rows ->
  Sql.insert item db = Ok db' ->
  exists rows', menuitems db' = Some rows' /\ keyed rows'.
Proof.
  intros H K. unfold Sql.insert. rewrite H.
  destruct (id item) as [k|] eqn:E.
  - destruct (negb (Sql.is_int64 k)); [discriminate|].
    destruct (Sql.has_rowid k rows) eqn:Hk; [discriminate|].
    intros I. inversion I; subst; simpl.
    eexists. split; [reflexivity|].
    apply place_keyed; [discriminate | | exact K].
    apply has_rowid_false; [exact (proj1 K) | exact Hk].
  - destruct (Sql.MAX_ROWID <=? Z.max (sqlite_sequence db) (Sql.max_rowid rows));
      [discriminate|].
    intros I. inversion I; subst; simpl.
    eexists. split; [reflexivity|].
    apply place_keyed; [discriminate | | exact K].
    eapply Forall_impl; [|exact (proj1 (max_rowid_bound rows))].
    simpl. intros a Ha. rewrite rowid_with_id. lia.
Qed.

Lemma insert_each_keyed fault (A : list MenuItem) :
  forall k (db db' : Store) (rows : list MenuItem),
    menuitems db = Some rows ->
    keyed rows ->
    insert_each fault k A db = Ok db' ->
    exists rows', menuitems db' = Some rows' /\ keyed rows'.
Proof.
  induction A as [|item A IH]; intros k db db' rows H K; simpl.
  - intros R. apply run_statement_ok in R. inversion R; subst.
    exists rows. split; assumption.
  - destruct (run_statement fault k (Sql.insert item) db) as [db1|m] eqn:R;
      [|discriminate].
    apply run_statement_ok in R.
    destruct (insert_keyed item db db1 rows H K R) as (rows1 & H1 & K1).
    apply (IH _ _ _ _ H1 K1).
Qed.

(** Whatever the store held before (even rows that break the key), a
    replacement that succeeds leaves a table in which every row has an id,
    no id occurs twice, and the rows are in ascending id order. *)
Theorem saveMenuItems_keeps_primary_key
    (fault : option nat) (A : list MenuItem) (db db' : Store) :
  saveMenuItems fault A db = (Ok tt, db') ->
  exists rows,
    menuitems db' = Some rows /\ keyed rows /\ NoDup (map Sql.rowid rows).
Proof.
  unfold saveMenuItems, withTransactionAsync.
  destruct (run_statement fault 0 Sql.delete_all db) as [db1|m] eqn:D;
    [|discriminate].
  destruct (insert_each fault 1 A db1) as [db2|m] eqn:I; [|discriminate].
  intros E. inversion E; subst db2.
  apply run_statement_ok in D. unfold Sql.delete_all in D.
  destruct (menuitems db); [|discriminate]. inversion D; subst db1.
  destruct (insert_each_keyed fault A 1%nat
              {| menuitems := Some []; sqlite_sequence := sqlite_sequence db |}
              db' [] eq_refl
              (conj (Forall_nil _) (SSorted_nil _)) I) as (rows & H & K).
  exists rows. split; [exact H|]. split; [exact K|].
  destruct K as [_ Hs]. clear -Hs.
  induction Hs as [|r rows Hs IH Hall]; simpl; constructor; [|exact IH].
  rewrite in_map_iff. intros (r' & E & Hin).
  rewrite Forall_forall in Hall. specialize (Hall r' Hin). lia.
Qed.

Lemma saveMenuItems_keeps_primary_key_witness :
  exists rows,
    menuitems (snd (saveMenuItems None Sample.payload Sample.store))
    = Some rows
    /\ keyed rows /\ NoDup (map Sql.rowid rows).
Proof.
  apply (saveMenuItems_keeps_primary_key None Sample.payload Sample.store).
  reflexivity.
Defined.

End StoreIds.

Section SearchAndAll.

Import Database.

(** *** Filtering commutes with ORDER BY *)

Section FilterSorted.

Variable le : MenuItem -> MenuItem -> bool.
Hypothesis le_total : forall x y, le x y = false -> le y x = true.
Hypothesis le_trans :
  forall x y z, le x y = true -> le y z = true -> le x z = true.

Lemma insert_by_front (x : MenuItem) (m : list MenuItem) :
  (forall z, In z m -> le x z = true) -> Sql.insert_by le x m = x :: m.
Proof.
  destruct m as [|y m]; simpl; [reflexivity|].
  intros H. rewrite (H y) by auto. reflexivity.
Qed.

Lemma filter_insert_by (p : MenuItem -> bool) (x : MenuItem)
    (l : list MenuItem) :
  StronglySorted (fun a b => le a b = true) l ->
  filter p (Sql.insert_by le x l)
  = if p x then Sql.insert_by le x (filter p l) else filter p l.
Proof.
  induction 1 as [|y l Hs IH Hall]; simpl.
  - destruct (p x); reflexivity.
  - destruct (le x y) eqn:E; simpl.
    + destruct (p x) eqn:Px; [|reflexivity].
      symmetry. apply insert_by_front.
      intros z Hz.
      assert (Hin : In z (y :: l)).
      { change (In z (filter p (y :: l))) in Hz.
        apply filter_In in Hz. apply Hz. }
      destruct Hin as [<-|Hin]; [exact E|].
      rewrite Forall_forall in Hall. eapply le_trans; [exact E|].
      apply Hall, Hin.
    + rewrite IH. destruct (p y) eqn:Py; destruct (p x) eqn:Px; simpl;
        try rewrite E; reflexivity.
Qed.

Lemma filter_order_by (p : MenuItem -> bool) (l : list MenuItem) :
  filter p (Sql.order_by le l) = Sql.order_by le (filter p l).
Proof.
  induction l as [|x l IH]; simpl; [reflexivity|].
  rewrite filter_insert_by.
  - rewrite IH. destruct (p x); reflexivity.
  - apply (order_by_sorted le (fun a b => le a b = true));
      [auto | exact le_total | exact le_trans].
Qed.

End FilterSorted.

Lemma category_name_le_by (x y : MenuItem) :
  category_name_le x y -> Sql.by_category_name x y = true.
Proof.
  unfold category_name_le, Sql.by_category_name.
  intros [H | [E N]].
  - rewrite H. reflexivity.
  - rewrite E, compare_refl. apply text_le_leb, N.
Qed.

Lemma by_category_name_total_b (x y : MenuItem) :
  Sql.by_category_name x y = false -> Sql.by_category_name y x = true.
Proof. intros H. apply category_name_le_by, by_category_name_total, H. Qed.

Lemma by_category_name_trans_b (x y z : MenuItem) :
  Sql.by_category_name x y = true -> Sql.by_category_name y z = true ->
  Sql.by_category_name x z = true.
Proof.
  intros H1 H2. apply category_name_le_by.
  eapply category_name_le_trans; apply by_category_name_le; eassumption.
Qed.

(** A search returns a part of what the "all" filter returns, in the same
    relative order: it is the "all" view with the rows that do not match
    struck out. *)
Theorem search_is_part_of_all_view
    (db : Store) (rows : list MenuItem) (q : text) :
  menuitems db = Some rows ->
  ~ blank q ->
  exists view,
    filterByCategory all db = Ok view
    /\ searchMenuItems q db = Ok (filter (search_hit q) view).
Proof.
  intros H B.
  assert (E1 : isEmpty (trim q) = false).
  { unfold blank in B. destruct (trim q); [contradiction | reflexivity]. }
  assert (E0 : isEmpty q = false).
  { destruct q; [contradiction B; reflexivity | reflexivity]. }
  unfold filterByCategory, searchMenuItems, Sql.select.
  rewrite all_is_all, E0, E1, H. simpl orb. cbv iota.
  eexists. split; [reflexivity|].
  rewrite filter_all. f_equal.
  rewrite (filter_order_by Sql.by_category_name
             by_category_name_total_b by_category_name_trans_b).
  reflexivity.
Qed.

Lemma search_is_part_of_all_view_witness :
  exists view,
    filterByCategory all Sample.store = Ok view
    /\ searchMenuItems (lit "a") Sample.store
       = Ok (filter (search_hit (lit "a")) view).
Proof.
  apply (search_is_part_of_all_view Sample.store Sample.rows (lit "a")).
  - reflexivity.
  - discriminate.
Defined.

(** *** The case of the query *)

Lemma isWhiteSpace_capital (c : N) :
  (65 <= c)%N -> (c <= 122)%N -> isWhiteSpace c = false.
Proof.
  intros H1 H2. unfold isWhiteSpace.
  repeat match goal with
         | |- context [N.leb ?a ?b] => destruct (N.leb_spec a b); try lia
         | |- context [N.eqb ?a ?b] => destruct (N.eqb_spec a b); try lia
         end; reflexivity.
Qed.

Lemma isWhiteSpace_lowerChar (c : N) :
  isWhiteSpace (lowerChar c) = isWhiteSpace c.
Proof.
  unfold lowerChar.
  destruct ((65 <=? c)%N && (c <=? 90)%N) eqn:E; [|reflexivity].
  apply andb_true_iff in E. destruct E as [E1 E2].
  apply N.leb_le in E1. apply N.leb_le in E2.
  rewrite !isWhiteSpace_capital by lia. reflexivity.
Qed.

Lemma trimStart_LOWER (s : text) : trimStart (LOWER s) = LOWER (trimStart s).
Proof.
  induction s as [|c s IH]; simpl; [reflexivity|].
  rewrite isWhiteSpace_lowerChar.
  destruct (isWhiteSpace c); [exact IH | reflexivity].
Qed.

Lemma trimEnd_LOWER (s : text) : trimEnd (LOWER s) = LOWER (trimEnd s).
Proof.
  induction s as [|c s IH]; simpl; [reflexivity|].
  rewrite IH, isWhiteSpace_lowerChar.
  destruct (trimEnd s); simpl; [destruct (isWhiteSpace c)|]; reflexivity.
Qed.

Lemma trim_LOWER (s : text) : trim (LOWER s) = LOWER (trim s).
Proof. unfold trim. rewrite trimStart_LOWER, trimEnd_LOWER. reflexivity. Qed.

Lemma isEmpty_LOWER (s : text) : isEmpty (LOWER s) = isEmpty s.
Proof. destruct s; reflexivity. Qed.

(** The case of the query does not matter: two queries that differ only in
    the case of ASCII letters get the same result from every store. *)
Theorem search_ignores_query_case (q q' : text) (db : Store) :
  same_ignoring_case q q' ->
  searchMenuItems q db = searchMenuItems q' db.
Proof.
  unfold same_ignoring_case. intros E.
  assert (Et : LOWER (trim q) = LOWER (trim q'))
    by (rewrite <- !trim_LOWER, E; reflexivity).
  assert (Es : LOWER (searchTerm q) = LOWER (searchTerm q')).
  { unfold searchTerm, LOWER. cbn [map]. rewrite !map_app.
    unfold LOWER in Et. rewrite Et. reflexivity. }
  unfold searchMenuItems.
  rewrite <- (isEmpty_LOWER q), <- (isEmpty_LOWER (trim q)), E, Et.
  rewrite (isEmpty_LOWER q'), (isEmpty_LOWER (trim q')), Es.
  reflexivity.
Qed.

Lemma search_ignores_query_case_witness :
  searchMenuItems (lit "LeMoN") Sample.store
  = searchMenuItems (lit "lemon") Sample.store.
Proof.
  apply (search_ignores_query_case (lit "LeMoN") (lit "lemon") Sample.store).
  reflexivity.
Defined.

(** *** Before the table exists *)

Local Open Scope string_scope.

(** On a database in which the table was never created, every read fails
    with the function's own message, a replacement fails and leaves the
    database as it was; once [createTable] has run, every read succeeds and
    returns the empty sequence. *)
Theorem store_without_table (db : Store) :
  menuitems db = None ->
  getMenuItems db = Err "Failed to get menu items: no such table: menuitems"
  /\ (forall c, filterByCategory c db
                = Err "Failed to filter by category: no such table: menuitems")
  /\ (forall q, searchMenuItems q db
                = Err "Failed to search menu items: no such table: menuitems")
  /\ (forall A, saveMenuItems None A db
                = (Err "Failed to save menu items: no such table: menuitems",
                   db))
  /\ (let db' := snd (createTable db) in
      getMenuItems db' = Ok []
      /\ (forall c, filterByCategory c db' = Ok [])
      /\ (forall q, searchMenuItems q db' = Ok [])).
Proof.
  intros H.
  split; [unfold getMenuItems, Sql.select; rewrite H; reflexivity|].
  split.
  { intros c. unfold filterByCategory, Sql.select. rewrite H.
    destruct (Text.eqb c all); reflexivity. }
  split.
  { intros q. unfold searchMenuItems, Sql.select. rewrite H.
    destruct (isEmpty q || isEmpty (trim q)); reflexivity. }
  split.
  { intros A. unfold saveMenuItems, withTransactionAsync, run_statement.
    simpl. unfold Sql.delete_all. rewrite H. reflexivity. }
  unfold createTable, Sql.create_table. rewrite H. simpl.
  split; [reflexivity|]. split.
  - intros c. unfold filterByCategory, Sql.select. simpl.
    destruct (Text.eqb c all); reflexivity.
  - intros q. unfold searchMenuItems, Sql.select. simpl.
    destruct (isEmpty q || isEmpty (trim q)); reflexivity.
Qed.

Lemma store_without_table_witness :
  getMenuItems Sample.fresh
  = Err "Failed to get menu items: no such table: menuitems"
  /\ getMenuItems (snd (createTable Sample.fresh)) = Ok [].
Proof.
  destruct (store_without_table Sample.fresh eq_refl)
    as (H1 & _ & _ & _ & H2 & _).
  split; assumption.
Defined.

End SearchAndAll.

(* ===================================================================== *)
(** ** More about grouping *)
(* ===================================================================== *)

Section GroupingMore.

Import Home.

Lemma first_inherited (items : list MenuItem) :
  Exists (fun item => Js.inherited (category item) = true) items ->
  exists p item rest,
    items = p ++ item :: rest
    /\ Forall (fun x => Js.inherited (category x) = false) p
    /\ Js.inherited (category item) = true.
Proof.
  induction items as [|x items IH]; intros E; [inversion E|].
  destruct (Js.inherited (category x)) eqn:Hx.
  - exists [], x, items. repeat split; [constructor | exact Hx].
  - inversion E as [? ? Hx'|? ? E']; subst; [congruence|].
    destruct (IH E') as (p & item & rest & -> & F & Hi).
    exists (x :: p), item, rest. repeat split; [constructor; assumption|].
    exact Hi.
Qed.

Lemma toSections_of_forEach (items : list MenuItem) (m : string) :
  forEach items [] = Err m -> toSections items = Err m.
Proof.
  intros H. unfold toSections. destruct items; [discriminate|].
  rewrite H. reflexivity.
Qed.

Lemma toSections_inherited (items : list MenuItem) :
  Exists (fun item => Js.inherited (category item) = true) items ->
  toSections items = Err not_a_function.
Proof.
  intros E. destruct (first_inherited items E) as (p & item & rest & -> & F & Hi).
  apply toSections_of_forEach.
  rewrite forEach_app, (forEach_grouped p F). simpl.
  unfold group_item. rewrite hasOwn_grouped, Hi.
  destruct (Text.mem (category item) (firstSeen (map category p))) eqn:M;
    [|reflexivity].
  apply mem_In, firstSeen_In, in_map_iff in M.
  destruct M as (x & Ex & Hin).
  rewrite Forall_forall in F. specialize (F x Hin). congruence.
Qed.

Lemma inherited_or_not (items : list MenuItem) :
  Forall (fun item => Js.inherited (category item) = false) items
  \/ Exists (fun item => Js.inherited (category item) = true) items.
Proof.
  induction items as [|x items [F|E]].
  - left. constructor.
  - destruct (Js.inherited (category x)) eqn:Hx.
    + right. constructor. exact Hx.
    + left. constructor; assumption.
  - right. apply Exists_cons_tl, E.
Qed.

(** The grouping throws exactly when some item's category is the name of a
    property that every object inherits ([constructor], [toString], ...);
    otherwise it returns sections. *)
Theorem toSections_throws_iff (items : list MenuItem) :
  (toSections items = Err not_a_function
   <-> Exists (fun item => Js.inherited (category item) = true) items)
  /\ ((exists secs, toSections items = Ok secs)
      <-> Forall (fun item => Js.inherited (category item) = false) items).
Proof.
  split; split.
  - intros H. destruct (inherited_or_not items) as [F|E]; [|exact E].
    rewrite (toSections_grouped items F) in H. discriminate.
  - apply toSections_inherited.
  - intros (secs & H). destruct (inherited_or_not items) as [F|E]; [exact F|].
    rewrite (toSections_inherited items E) in H. discriminate.
  - intros F. eexists. apply toSections_grouped, F.
Qed.

(** *** Sections partition the items *)

Lemma insert_index_perm (x : text) (l : list text) :
  Permutation (Js.insert_index x l) (x :: l).
Proof.
  induction l as [|y l IH]; simpl; [reflexivity|].
  destruct (Js.indexValue x <=? Js.indexValue y)%N; [reflexivity|].
  rewrite IH. apply perm_swap.
Qed.

Lemma key_order_perm (ks : list text) : Permutation (Js.key_order ks) ks.
Proof.
  unfold Js.key_order.
  induction ks as [|k ks IH]; simpl; [reflexivity|].
  destruct (Js.isArrayIndex k); simpl.
  - rewrite insert_index_perm. simpl. constructor. exact IH.
  - rewrite <- Permutation_middle. constructor. exact IH.
Qed.

Lemma in_category_outside (k : text) (x : MenuItem) (items : list MenuItem) :
  category x <> k -> in_category k (x :: items) = in_category k items.
Proof.
  intros H. unfold in_category. simpl.
  apply text_eqb_neq in H. rewrite H. reflexivity.
Qed.

Lemma in_category_own (x : MenuItem) (items : list MenuItem) :
  in_category (category x) (x :: items)
  = x :: in_category (category x) items.
Proof. unfold in_category. simpl. rewrite text_eqb_refl. reflexivity. Qed.

Lemma flat_map_outside (x : MenuItem) (items : list MenuItem)
    (ks : list text) :
  ~ In (category x) ks ->
  flat_map (fun k => in_category k (x :: items)) ks
  = flat_map (fun k => in_category k items) ks.
Proof.
  induction ks as [|k ks IH]; cbn [flat_map]; [reflexivity|].
  intros H. rewrite in_category_outside by (intros E; apply H; left; auto).
  rewrite IH by (intros E; apply H; right; exact E). reflexivity.
Qed.

Lemma sections_cover (items : list MenuItem) :
  forall ks : list text,
    NoDup ks ->
    (forall item, In item items -> In (category item) ks) ->
    Permutation (flat_map (fun k => in_category k items) ks) items.
Proof.
  induction items as [|x items IH]; intros ks ND C.
  - induction ks as [|k ks IHk]; simpl; [constructor|].
    apply IHk. inversion ND; assumption. intros ? [].
  - destruct (in_split (category x) ks (C x (or_introl eq_refl)))
      as (ks1 & ks2 & ->).
    apply NoDup_remove in ND. destruct ND as [ND Hnot].
    rewrite in_app_iff in Hnot.
    rewrite flat_map_app. cbn [flat_map].
    rewrite !flat_map_outside by tauto.
    rewrite in_category_own.
    cbn [app]. rewrite <- Permutation_middle. constructor.
    specialize (IH (ks1 ++ category x :: ks2)).
    rewrite flat_map_app in IH. cbn [flat_map] in IH. apply IH.
    + apply (proj2 (NoDup_Add (Add_app (category x) ks1 ks2))).
      split; [exact ND|].
      intros Hi. apply in_app_iff in Hi. exact (Hnot Hi).
    + intros item Hin. apply C. right. exact Hin.
Qed.

Lemma sections_partition (items : list MenuItem) (secs : list MenuSection) :
  toSections items = Ok secs ->
  Permutation (List.concat (map data secs)) items
  /\ NoDup (map title secs)
  /\ (forall s, In s secs ->
        data s <> []
        /\ Forall (fun item => category item = title s /\ In item items)
             (data s)).
Proof.
  intros H.
  assert (F : Forall (fun item => Js.inherited (category item) = false) items).
  { destruct (inherited_or_not items) as [F|E]; [exact F|].
    rewrite (toSections_inherited items E) in H. discriminate. }
  rewrite (toSections_grouped items F) in H. inversion H; subst secs; clear H.
  set (ks := Js.key_order (firstSeen (map category items))).
  assert (P : Permutation ks (firstSeen (map category items)))
    by apply key_order_perm.
  assert (ND : NoDup ks).
  { eapply Permutation_NoDup; [symmetry; exact P | apply firstSeen_NoDup]. }
  assert (Hin : forall k, In k ks <-> In k (map category items)).
  { intros k. split; intros Hk.
    - apply firstSeen_In. eapply Permutation_in; [exact P | exact Hk].
    - eapply Permutation_in; [symmetry; exact P | apply firstSeen_In, Hk]. }
  split; [|split].
  - rewrite map_map. simpl. rewrite <- flat_map_concat_map.
    apply sections_cover; [exact ND|].
    intros item Hi. apply Hin, in_map, Hi.
  - rewrite map_map. simpl. rewrite map_id. exact ND.
  - intros s Hs. apply in_map_iff in Hs. destruct Hs as (k & <- & Hk).
    simpl. split.
    + apply Hin, in_map_iff in Hk. destruct Hk as (item & E & Hi).
      intros Hnil.
      assert (Hm : In item (in_category k items)).
      { apply filter_In. split; [exact Hi | apply text_eqb_eq, E]. }
      rewrite Hnil in Hm. exact Hm.
    + apply Forall_forall. intros item Hi. apply filter_In in Hi.
      destruct Hi as [Hi E]. apply text_eqb_eq in E. auto.
Qed.

(** When the grouping returns, its sections partition the items: every item
    sits in exactly one section, the one titled with its category; no two
    sections share a title and no section is empty. *)
Theorem toSections_partitions (items : list MenuItem)
    (secs : list MenuSection) :
  toSections items = Ok secs ->
  Permutation (List.concat (map data secs)) items
  /\ NoDup (map title secs)
  /\ (forall s, In s secs ->
        data s <> []
        /\ Forall (fun item => category item = title s /\ In item items)
             (data s)).
Proof. apply sections_partition. Qed.

Lemma toSections_partitions_witness :
  Permutation
    (List.concat (map data (first_seen_sections Sample.payload))) Sample.payload
  /\ NoDup (map title (first_seen_sections Sample.payload)).
Proof.
  destruct (toSections_partitions Sample.payload
              (first_seen_sections Sample.payload) eq_refl) as (H1 & H2 & _).
  split; assumption.
Defined.

End GroupingMore.

Section SaveFailure.

Import Database.

Lemma saveMenuItems_all_or_nothing_aux
    (fault : option nat) (A : list MenuItem) (db : Store) (m : string) :
  fst (saveMenuItems fault A db) = Err m ->
  snd (saveMenuItems fault A db) = db
  /\ exists m0, m = String "F" m0.
Proof.
  unfold saveMenuItems, withTransactionAsync.
  destruct (match run_statement fault 0 Sql.delete_all db with
            | Ok db1 => insert_each fault 1 A db1
            | Err m => Err m
            end) as [db'|m']; simpl; [discriminate|].
  intros E. inversion E. split; [reflexivity|]. eexists. reflexivity.
Qed.

End SaveFailure.

(* ===================================================================== *)
(** ** More about initialization and queries *)
(* ===================================================================== *)

Section ControllerMore.

Import Home.

Ltac unfold_async :=
  unfold initializeApp, queryEffect, loadMenuByCategory, transform,
    try_finally, try_catch, bind, ret, createTable, getMenuItemsFromDB,
    fetchMenuFromAPI, saveMenuItems, filterByCategory, searchMenuItems,
    setSections, setLoading, setError, setIsInitialized, setState,
    record, with_db;
  cbn [db remote fault state calls fst snd sections loading error
       isInitialized].

(** [initializeApp] never rejects and never leaves the loading flag set,
    whatever the database, the remote source or the engine do. *)
Theorem initializeApp_always_settles (w : World) :
  fst (initializeApp w) = Ok tt
  /\ loading (state (snd (initializeApp w))) = false.
Proof.
  unfold_async.
  destruct (Database.createTable (db w)) as [[[]|m] d]; cbn -[toSections];
    [|split; reflexivity].
  destruct (Database.getMenuItems d) as [[|r rows]|m]; cbn -[toSections];
    [| |split; reflexivity].
  - destruct (remote w) as [[| |menu]|m]; cbn -[toSections]; try (split; reflexivity).
    destruct (Database.saveMenuItems (fault w) menu d) as [[[]|m] d']; cbn -[toSections];
      [|split; reflexivity].
    destruct (toSections menu); cbn -[toSections]; split; reflexivity.
  - destruct (toSections (r :: rows)); cbn -[toSections]; split; reflexivity.
Qed.

(** The filtering effect never rejects and never touches the database;
    once the component is initialized it leaves the loading flag cleared,
    and before that it does nothing at all. *)
Theorem queryEffect_settles (c q : text) (w : World) :
  fst (queryEffect c q w) = Ok tt
  /\ db (snd (queryEffect c q w)) = db w
  /\ (isInitialized (state w) = true ->
      loading (state (snd (queryEffect c q w))) = false)
  /\ (isInitialized (state w) = false -> snd (queryEffect c q w) = w).
Proof.
  unfold queryEffect.
  destruct (isInitialized (state w)) eqn:I.
  - destruct (isEmpty (trim q)); cbn [negb]; unfold_async.
    + destruct (Database.filterByCategory c (db w)) as [out|m]; cbn;
        [destruct (toSections out); cbn|];
        repeat split; intros; congruence || reflexivity.
    + destruct (Database.searchMenuItems q (db w)) as [out|m]; cbn;
        [destruct (toSections out); cbn|];
        repeat split; intros; congruence || reflexivity.
  - cbn. repeat split; intros; congruence || reflexivity.
Qed.

Lemma queryEffect_settles_witness :
  loading
    (state
       (snd (queryEffect (lit "mains") (lit "")
               (snd (initializeApp
                       (Sample.world Sample.store (Ok WithoutMenu)))))))
  = false.
Proof.
  apply (queryEffect_settles (lit "mains") (lit "")
           (snd (initializeApp (Sample.world Sample.store (Ok WithoutMenu))))).
  reflexivity.
Defined.

Lemma serve_uninitialized (queries : list (text * text)) (w : World) :
  isInitialized (state w) = false -> serve queries w = w.
Proof.
  intros I. induction queries as [|[c q] queries IH]; simpl; [reflexivity|].
  unfold queryEffect. rewrite I. exact IH.
Qed.

(** When the store is empty and the fetch fails, [initializeApp] reports
    the failure's message, writes nothing, shows nothing new and does not
    mark the component initialized; from then on the filtering effect does
    nothing, whatever is typed or pressed. *)
Theorem failed_fetch_blocks_the_screen
    (w : World) (m : string) (queries : list (text * text)) :
  empty_store (db w) ->
  remote w = Err m ->
  isInitialized (state w) = false ->
  let w' := snd (initializeApp w) in
  calls w' = calls w ++ [CreateTable; GetMenuItems; Fetch]
  /\ menuitems (db w') = Some []
  /\ error (state w') = Some (message_or m "Error initializing app")
  /\ sections (state w') = sections (state w)
  /\ isInitialized (state w') = false
  /\ serve queries w' = w'.
Proof.
  intros E R I.
  assert (H : let w' := snd (initializeApp w) in
              calls w' = calls w ++ [CreateTable; GetMenuItems; Fetch]
              /\ menuitems (db w') = Some []
              /\ error (state w') = Some (message_or m "Error initializing app")
              /\ sections (state w') = sections (state w)
              /\ isInitialized (state w') = false).
  { unfold_async.
    rewrite (createTable_on_empty (db w) E). cbn.
    rewrite R. cbn. rewrite <- !app_assoc. repeat split. exact I. }
  cbv zeta in *. destruct H as (H1 & H2 & H3 & H4 & H5).
  repeat split; try assumption.
  apply serve_uninitialized, H5.
Qed.

Lemma failed_fetch_blocks_the_screen_witness :
  let w := Sample.world Sample.fresh (Err "Network request failed"%string) in
  let w' := snd (initializeApp w) in
  calls w' = calls w ++ [CreateTable; GetMenuItems; Fetch]
  /\ menuitems (db w') = Some []
  /\ error (state w') = Some "Network request failed"%string
  /\ sections (state w') = sections (state w)
  /\ isInitialized (state w') = false
  /\ serve [(lit "mains", lit ""); (lit "all", lit "lemon")] w' = w'.
Proof.
  apply (failed_fetch_blocks_the_screen
           (Sample.world Sample.fresh (Err "Network request failed"%string))
           "Network request failed"%string
           [(lit "mains", lit ""); (lit "all", lit "lemon")]).
  - exact I.
  - reflexivity.
  - reflexivity.
Defined.

(** When the store is empty and the fetched menu cannot be stored (an
    engine fault, or two items with the same id), [initializeApp] reports
    the store's message, the table is left empty, nothing is shown and the
    component is not marked initialized. *)
Theorem failed_save_leaves_store_empty
    (w : World) (menu : list MenuItem) (m : string) :
  empty_store (db w) ->
  remote w = Ok (WithMenu menu) ->
  fst (Database.saveMenuItems (fault w) menu
         (snd (Database.createTable (db w)))) = Err m ->
  let w' := snd (initializeApp w) in
  calls w' = calls w ++ [CreateTable; GetMenuItems; Fetch; SaveMenuItems menu]
  /\ menuitems (db w') = Some []
  /\ error (state w') = Some m
  /\ sections (state w') = sections (state w)
  /\ isInitialized (state w') = isInitialized (state w).
Proof.
  intros E R S.
  pose proof (saveMenuItems_all_or_nothing_aux (fault w) menu
                (snd (Database.createTable (db w))) m S) as A.
  unfold_async.
  rewrite (createTable_on_empty (db w) E) in *. cbn in *.
  rewrite R. cbn.
  destruct (Database.saveMenuItems (fault w) menu
              {| menuitems := Some [];
                 sqlite_sequence := sqlite_sequence (db w) |})
    as [r d]. cbn in S, A. subst r. destruct A as [A P]. subst d. cbn.
  destruct P as (m0 & ->). cbn.
  rewrite <- !app_assoc. repeat split.
Qed.

Lemma failed_save_leaves_store_empty_witness :
  let menu := [Sample.greek_salad; Sample.greek_salad] in
  let w := Sample.world Sample.fresh (Ok (WithMenu menu)) in
  let w' := snd (initializeApp w) in
  calls w' = calls w ++ [CreateTable; GetMenuItems; Fetch; SaveMenuItems menu]
  /\ menuitems (db w') = Some []
  /\ error (state w')
     = Some "Failed to save menu items: UNIQUE constraint failed: menuitems.id"%string
  /\ sections (state w') = sections (state w)
  /\ isInitialized (state w') = isInitialized (state w).
Proof.
  apply (failed_save_leaves_store_empty
           (Sample.world Sample.fresh
              (Ok (WithMenu [Sample.greek_salad; Sample.greek_salad])))
           [Sample.greek_salad; Sample.greek_salad]).
  - exact I.
  - reflexivity.
  - reflexivity.
Defined.



(** With a blank search text (empty, or white space only), filtering by a
    category other than "all" shows exactly the stored rows of that
    category (up to case), and every section shown is titled with that
    category, up to case. *)
Theorem category_view_shows_the_category
    (c q : text) (w : World) (rows : list MenuItem) :
  blank q ->
  isInitialized (state w) = true ->
  menuitems (db w) = Some rows ->
  c <> Database.all ->
  Forall (fun r => Js.inherited (category r) = false) rows ->
  let w' := snd (queryEffect c q w) in
  Permutation (List.concat (map data (sections (state w'))))
    (filter (category_is c) rows)
  /\ (forall s, In s (sections (state w')) ->
        same_ignoring_case (title s) c)
  /\ error (state w') = error (state w)
  /\ calls w' = calls w ++ [FilterByCategory c].
Proof.
  intros B I H Hc F. unfold blank in B.
  assert (S : selects (category_is c) name_le rows
                (Database.filterByCategory c (db w))).
  { unfold Database.filterByCategory.
    apply text_eqb_neq in Hc. rewrite Hc.
    apply selects_ok. apply select_by_name, H. }
  destruct S as (out & E & P & _).
  assert (Fo : Forall (fun r => Js.inherited (category r) = false) out).
  { rewrite Forall_forall in *. intros r Hr. apply F.
    apply (Permutation_in _ P) in Hr. apply filter_In in Hr. apply Hr. }
  pose proof (toSections_grouped out Fo) as T.
  destruct (sections_partition out _ T) as (P1 & _ & P3).
  unfold queryEffect. rewrite I, B. cbn [isEmpty negb].
  unfold_async. rewrite E. cbn -[toSections]. rewrite T. cbn.
  split; [rewrite P1; exact P|]. split; [|split; reflexivity].
  intros s Hs. destruct (P3 s Hs) as [Hne Hall].
  destruct (data s) as [|item rest]; [congruence|].
  inversion Hall as [|? ? [Ec Hin] _]; subst.
  rewrite <- Ec. apply category_is_spec.
  apply (Permutation_in _ P) in Hin. apply filter_In in Hin. apply Hin.
Qed.

Lemma category_view_shows_the_category_witness :
  let w := snd (initializeApp (Sample.world Sample.store (Ok WithoutMenu))) in
  let w' := snd (queryEffect (lit "MAINS") (lit "  ") w) in
  Permutation (List.concat (map data (sections (state w'))))
    (filter (category_is (lit "MAINS")) Sample.rows)
  /\ (forall s, In s (sections (state w')) ->
        same_ignoring_case (title s) (lit "MAINS"))
  /\ error (state w') = error (state w)
  /\ calls w' = calls w ++ [FilterByCategory (lit "MAINS")].
Proof.
  apply (category_view_shows_the_category (lit "MAINS") (lit "  ")
           (snd (initializeApp (Sample.world Sample.store (Ok WithoutMenu))))
           Sample.rows).
  - reflexivity.
  - reflexivity.
  - reflexivity.
  - discriminate.
  - repeat constructor.
Defined.

End ControllerMore.

(* ===================================================================== *)
(** ** The category buttons and the search box *)
(* ===================================================================== *)

Section InputFacts.

Import Inputs.

Lemma handle_tidy (f : Filters) (e : Event) : tidy f -> tidy (handle f e).
Proof.
  unfold tidy, blank. intros H. destruct e as [c|q|]; simpl.
  - left. reflexivity.
  - destruct (trim q); simpl; auto.
  - exact H.
Qed.

Lemma fold_tidy (events : list Event) :
  forall f, tidy f -> tidy (fold_left handle events f).
Proof.
  induction events as [|e events IH]; intros f H; simpl; [exact H|].
  apply IH, handle_tidy, H.
Qed.

(** Whatever the user pressed and typed, while the search box holds a
    non-blank text the selected category is "all"; and when the debounce
    timer has just fired on an initialized screen, the effect searches for
    the text of the search box if it is not blank and otherwise filters by
    the selected category. *)
Theorem search_text_selects_all (events : list Event) :
  (~ blank (searchQuery (after events)) ->
   selectedCategory (after events) = lit "all")
  /\ (forall w,
        Home.isInitialized (Home.state w) = true ->
        let f := after (events ++ [TimerFires]) in
        Home.calls (snd (effect f w))
        = Home.calls w
          ++ [if isEmpty (trim (searchQuery f))
              then Home.FilterByCategory (selectedCategory f)
              else Home.SearchMenuItems (searchQuery f)]).
Proof.
  split.
  - intros B. destruct (fold_tidy events initial) as [H|H];
      [left; reflexivity | contradiction | exact H].
  - intros w I. unfold after. rewrite fold_left_app. simpl.
    unfold effect. simpl. rewrite queryEffect_calls, I.
    destruct (isEmpty (trim (searchQuery (fold_left handle events initial))));
      reflexivity.
Qed.

Lemma search_text_selects_all_witness :
  selectedCategory
    (after [PressCategory (lit "mains"); ChangeSearch (lit "lem")])
  = lit "all".
Proof.
  apply (search_text_selects_all
           [PressCategory (lit "mains"); ChangeSearch (lit "lem")]).
  discriminate.
Defined.

End InputFacts.

(* ===================================================================== *)
(** ** Facts about patterns *)
(* ===================================================================== *)

Section RegexFacts.

Import Regex.
Local Open Scope N_scope.

Lemma lang_star_cons (a : regex) (c : N) (s : text) :
  lang (Star a) (c :: s) ->
  exists s1 s2, s = s1 ++ s2 /\ lang a (c :: s1) /\ lang (Star a) s2.
Proof.
  intros H. remember (Star a) as r eqn:Er. remember (c :: s) as u eqn:Eu.
  revert Er Eu.
  induction H as [| | | | | |a' s1 t H1 _ H2 IH2]; intros Er Eu;
    try discriminate.
  inversion Er; subst a'.
  destruct s1 as [|d s1]; simpl in Eu.
  - apply IH2; [reflexivity | exact Eu].
  - inversion Eu; subst. exists s1, t. auto.
Qed.

Lemma lang_cat_inv (a b : regex) (u : text) :
  lang (Cat a b) u -> exists s t, u = s ++ t /\ lang a s /\ lang b t.
Proof. intros H. inversion H; subst. eauto. Qed.

Lemma lang_alt_inv (a b : regex) (u : text) :
  lang (Alt a b) u -> lang a u \/ lang b u.
Proof. intros H. inversion H; subst; auto. Qed.

Lemma lang_class_inv (p : N -> bool) (u : text) :
  lang (Class p) u -> exists c, u = [c] /\ p c = true.
Proof. intros H. inversion H; subst. eauto. Qed.

Lemma lang_void_inv (u : text) : ~ lang Void u.
Proof. intros H. inversion H. Qed.

Lemma lang_eps_inv (u : text) : lang Eps u -> u = [].
Proof. intros H. inversion H. reflexivity. Qed.

Lemma nullable_lang (r : regex) : nullable r = true <-> lang r [].
Proof.
  induction r as [| |p|a IHa b IHb|a IHa b IHb|a IHa]; simpl.
  - split; [discriminate | intros H; destruct (lang_void_inv _ H)].
  - split; [constructor | reflexivity].
  - split; [discriminate|].
    intros H. destruct (lang_class_inv _ _ H) as (c & E & _). discriminate.
  - rewrite andb_true_iff, IHa, IHb. split.
    + intros [Ha Hb]. apply (lang_cat a b [] [] Ha Hb).
    + intros H. destruct (lang_cat_inv _ _ _ H) as (s & t & E & Ha & Hb).
      symmetry in E. apply app_eq_nil in E. destruct E; subst. auto.
  - rewrite orb_true_iff, IHa, IHb. split.
    + intros [H|H]; [apply lang_alt_l | apply lang_alt_r]; exact H.
    + apply lang_alt_inv.
  - split; [constructor | reflexivity].
Qed.

Lemma deriv_lang (r : regex) :
  forall (c : N) (s : text), lang (deriv c r) s <-> lang r (c :: s).
Proof.
  induction r as [| |p|a IHa b IHb|a IHa b IHb|a IHa]; intros c s; simpl.
  - split; intros H; destruct (lang_void_inv _ H).
  - split; intros H; [destruct (lang_void_inv _ H)|].
    apply lang_eps_inv in H. discriminate.
  - split.
    + destruct (p c) eqn:E; intros H; [|destruct (lang_void_inv _ H)].
      apply lang_eps_inv in H. subst. constructor. exact E.
    + intros H. destruct (lang_class_inv _ _ H) as (d & E & Hd).
      inversion E; subst. rewrite Hd. constructor.
  - split.
    + intros H. destruct (lang_alt_inv _ _ _ H) as [H1|H1].
      * destruct (lang_cat_inv _ _ _ H1) as (s1 & t & -> & Ha & Hb).
        apply IHa in Ha. apply (lang_cat a b (c :: s1) t Ha Hb).
      * destruct (nullable a) eqn:N; [|destruct (lang_void_inv _ H1)].
        apply nullable_lang in N. apply IHb in H1.
        apply (lang_cat a b [] (c :: s) N H1).
    + intros H. destruct (lang_cat_inv _ _ _ H) as (s1 & t & E & Ha & Hb).
      destruct s1 as [|d s1]; simpl in E.
      * subst t. apply lang_alt_r.
        apply nullable_lang in Ha. rewrite Ha. apply IHb, Hb.
      * inversion E; subst. apply lang_alt_l.
        constructor; [apply IHa, Ha | exact Hb].
  - split; intros H; destruct (lang_alt_inv _ _ _ H) as [H1|H1].
    + apply lang_alt_l, IHa, H1.
    + apply lang_alt_r, IHb, H1.
    + apply lang_alt_l, IHa, H1.
    + apply lang_alt_r, IHb, H1.
  - split.
    + intros H. destruct (lang_cat_inv _ _ _ H) as (s1 & t & -> & Ha & Hb).
      apply IHa in Ha. apply (lang_star_more a (c :: s1) t Ha Hb).
    + intros H. destruct (lang_star_cons a c s H) as (s1 & s2 & -> & Ha & Hs).
      constructor; [apply IHa, Ha | exact Hs].
Qed.

(** The matcher decides the language. *)
Lemma test_lang (s : text) : forall r, test r s = true <-> lang r s.
Proof.
  induction s as [|c s IH]; intros r; simpl.
  - apply nullable_lang.
  - rewrite IH. apply deriv_lang.
Qed.

Lemma lang_classes (P : N -> Prop) (r : regex) (s : text) :
  classes_within P r -> lang r s -> Forall P s.
Proof.
  intros C H. induction H; simpl in C; try (constructor; fail).
  - constructor; [apply C; assumption | constructor].
  - apply Forall_app. split; [apply IHlang1 | apply IHlang2]; tauto.
  - apply IHlang. tauto.
  - apply IHlang. tauto.
  - apply Forall_app. split; [apply IHlang1 | apply IHlang2]; assumption.
Qed.

Lemma lang_shortest (r : regex) (s : text) :
  lang r s -> exists n, shortest r = Some n /\ (n <= List.length s)%nat.
Proof.
  induction 1 as [|p c E|a b s t _ (m & Em & Hm) _ (n & En & Hn)
                 |a b s _ (m & Em & Hm)|a b s _ (n & En & Hn)|a|a s t _ _ _ _];
    simpl.
  - exists 0%nat. auto.
  - exists 1%nat. auto.
  - rewrite Em, En. exists (m + n)%nat. rewrite List.length_app.
    split; [reflexivity | lia].
  - rewrite Em. destruct (shortest b) as [n|];
      [exists (Nat.min m n); split; [reflexivity | lia] | exists m; auto].
  - rewrite En. destruct (shortest a) as [m|];
      [exists (Nat.min m n); split; [reflexivity | lia] | exists n; auto].
  - exists 0%nat. split; [reflexivity | lia].
  - exists 0%nat. split; [reflexivity | lia].
Qed.

Lemma lang_plus_class (p : N -> bool) (s : text) :
  lang (plus (Class p)) s <-> s <> [] /\ Forall (fun c => p c = true) s.
Proof.
  unfold plus. split.
  - intros H. split.
    + destruct (lang_shortest _ _ H) as (n & E & L). simpl in E.
      inversion E; subst. destruct s; [simpl in L; lia | discriminate].
    + apply (lang_classes (fun c => p c = true)
               (Cat (Class p) (Star (Class p))) s); [|exact H].
      simpl. auto.
  - intros [N F]. destruct s as [|c s]; [congruence|].
    inversion F as [|? ? Hc Hs]; subst.
    apply (lang_cat (Class p) (Star (Class p)) [c] s);
      [constructor; exact Hc|].
    clear -Hs. induction Hs as [|d s Hd _ IH]; [constructor|].
    apply (lang_star_more (Class p) [d] s); [constructor; exact Hd | exact IH].
Qed.

End RegexFacts.

(* ===================================================================== *)
(** ** The key-value store *)
(* ===================================================================== *)

Section StorageFacts.

Import AsyncStorage.

Lemma getItem_removeItem_eq (k : string) (s : Storage) :
  getItem k (removeItem k s) = None.
Proof.
  induction s as [|[k' v] s IH]; simpl; [reflexivity|].
  destruct (String.eqb k k') eqn:E; [exact IH|].
  simpl. rewrite E. exact IH.
Qed.

Lemma getItem_removeItem_neq (k k' : string) (s : Storage) :
  k <> k' -> getItem k (removeItem k' s) = getItem k s.
Proof.
  intros N. induction s as [|[k0 v] s IH]; simpl; [reflexivity|].
  destruct (String.eqb k' k0) eqn:E.
  - apply String.eqb_eq in E. subst k0.
    apply String.eqb_neq in N. rewrite N. exact IH.
  - simpl. rewrite IH. reflexivity.
Qed.

Lemma getItem_setItem_eq (k : string) (v : text) (s : Storage) :
  getItem k (setItem k v s) = Some v.
Proof. unfold setItem. simpl. rewrite String.eqb_refl. reflexivity. Qed.

Lemma getItem_setItem_neq (k k' : string) (v : text) (s : Storage) :
  k <> k' -> getItem k (setItem k' v s) = getItem k s.
Proof.
  intros N. unfold setItem. simpl.
  pose proof N as N'. apply String.eqb_neq in N'. rewrite N'.
  apply getItem_removeItem_neq, N.
Qed.

End StorageFacts.

(* ===================================================================== *)
(** ** Onboarding *)
(* ===================================================================== *)

Section OnboardingFacts.

Import Regex Onboarding AsyncStorage.
Local Open Scope string_scope.

(** A first name is accepted exactly when it is not empty and consists of
    the letters A-Z and a-z only. *)
Theorem first_name_valid_iff (firstName : text) :
  isFirstNameValid firstName = true
  <-> firstName <> [] /\ Forall (fun c => isLetter c = true) firstName.
Proof.
  unfold isFirstNameValid, firstNamePattern.
  rewrite test_lang. apply lang_plus_class.
Qed.

Ltac no_line_terminator :=
  let c := fresh "c" in
  let H := fresh "H" in
  let L := fresh "L" in
  intros c H;
  destruct (isLineTerminator c) eqn:L; [exfalso | reflexivity];
  unfold isLineTerminator in L;
  repeat (apply orb_true_iff in L; destruct L as [L|L]);
  apply N.eqb_eq in L; subst c; vm_compute in H; discriminate.

Ltac domain_char :=
  let c := fresh "c" in
  let H := fresh "H" in
  intros c H; unfold isDomainChar;
  first [ apply N.eqb_eq in H; subst c; reflexivity
        | rewrite H; reflexivity
        | unfold isHostChar; rewrite H; rewrite ?orb_true_r; reflexivity ].

Lemma email_no_line_terminator :
  classes_within (fun c => isLineTerminator c = false) emailPattern.
Proof.
  unfold emailPattern, localPattern, domainPattern, digits_1_3, plus, opt,
    chr, any.
  cbn [classes_within]. repeat split; try no_line_terminator.
  all: intros c H; apply negb_true_iff in H; exact H.
Qed.

Lemma domain_chars :
  classes_within (fun c => isDomainChar c = true) domainPattern.
Proof.
  unfold domainPattern, digits_1_3, plus, opt, chr.
  cbn [classes_within]. repeat split; domain_char.
Qed.

(** An accepted email has a non-empty part before an at sign, and after it
    a domain of at least four characters made of ASCII letters, digits,
    hyphens, dots and square brackets only; the whole has at least six
    characters and no line break. *)
Theorem valid_email_shape (email : text) :
  isEmailValid email = true ->
  (exists local_ domain,
      email = (local_ ++ 64%N :: domain)%list
      /\ local_ <> []
      /\ (4 <= List.length domain)%nat
      /\ Forall (fun c => isDomainChar c = true) domain)
  /\ (6 <= List.length email)%nat
  /\ Forall (fun c => isLineTerminator c = false) email.
Proof.
  unfold isEmailValid. rewrite test_lang. intros H.
  split; [|split].
  - unfold emailPattern in H.
    destruct (lang_cat_inv _ _ _ H) as (l & r & -> & Hl & Hr).
    destruct (lang_cat_inv _ _ _ Hr) as (a & d & -> & Ha & Hd).
    destruct (lang_class_inv _ _ Ha) as (c & -> & Hc).
    apply N.eqb_eq in Hc. subst c.
    exists l, d. split; [reflexivity|]. split; [|split].
    + destruct (lang_shortest _ _ Hl) as (n & E & L).
      vm_compute in E. inversion E; subst n.
      destruct l; [simpl in L; lia | discriminate].
    + destruct (lang_shortest _ _ Hd) as (n & E & L).
      vm_compute in E. inversion E; subst n. exact L.
    + apply (lang_classes _ domainPattern d domain_chars Hd).
  - destruct (lang_shortest _ _ H) as (n & E & L).
    vm_compute in E. inversion E; subst n. exact L.
  - apply (lang_classes _ emailPattern email email_no_line_terminator H).
Qed.

Lemma valid_email_shape_witness :
  (exists local_ domain,
      lit "ann@example.com" = (local_ ++ 64%N :: domain)%list
      /\ local_ <> []
      /\ (4 <= List.length domain)%nat
      /\ Forall (fun c => isDomainChar c = true) domain)
  /\ (6 <= List.length (lit "ann@example.com"))%nat
  /\ Forall (fun c => isLineTerminator c = false) (lit "ann@example.com").
Proof.
  apply (valid_email_shape (lit "ann@example.com")). reflexivity.
Defined.

(** The quoted form of the local part lets white space through, and a
    top-level domain needs two letters. *)
Example email_edge_cases :
  map (fun e => isEmailValid (lit e))
    ["a@b.co"; "a@b.c"; "a@b"; "a b@c.de"; "a.@c.de"; "A@[10.0.0.1]";
     "a@[10.0.0.1000]"]
  = [true; false; false; false; false; true; false]
  /\ isEmailValid (lit "x" ++ [34%N] ++ lit "a b" ++ [34%N] ++ lit "@c.de")%list
     = true.
Proof. split; reflexivity. Qed.

(** [handleNext] writes only when both fields are valid.  Then the store
    holds the name, the email and the flag ['true'] under [isLoggedIn],
    every other key is as before, and the next poll of the flag makes the
    app show the logged-in screens; otherwise the store is untouched. *)
Theorem handleNext_logs_in (firstName email : text) (s : Storage) :
  (isFirstNameValid firstName && isEmailValid email = true ->
   let s' := handleNext firstName email s in
   getItem "isLoggedIn" s' = Some (lit "true")
   /\ getItem "firstName" s' = Some firstName
   /\ getItem "email" s' = Some email
   /\ (forall k, k <> "isLoggedIn" -> k <> "firstName" -> k <> "email" ->
                 getItem k s' = getItem k s)
   /\ (forall l, App.App (App.poll s' l) = App.LoggedIn))
  /\ (isFirstNameValid firstName && isEmailValid email = false ->
      handleNext firstName email s = s).
Proof.
  unfold handleNext. split; intros V; rewrite V; [|reflexivity].
  cbv zeta.
  assert (L : getItem "isLoggedIn"
                (setItem "isLoggedIn" (lit "true")
                   (setItem "email" email (setItem "firstName" firstName s)))
              = Some (lit "true")) by apply getItem_setItem_eq.
  split; [exact L|]. split; [|split; [|split]].
  - rewrite !getItem_setItem_neq by discriminate. apply getItem_setItem_eq.
  - rewrite getItem_setItem_neq by discriminate. apply getItem_setItem_eq.
  - intros k N1 N2 N3. rewrite !getItem_setItem_neq by assumption.
    reflexivity.
  - intros l. unfold App.poll, App.loadValue, App.App. rewrite L. reflexivity.
Qed.

Lemma handleNext_logs_in_witness :
  let s' := handleNext (lit "Ann") (lit "ann@example.com") [] in
  getItem "isLoggedIn" s' = Some (lit "true")
  /\ App.App (App.poll s' (App.useAsyncStorageListener false)) = App.LoggedIn
  /\ handleNext (lit "Ann 2") (lit "ann@example.com") [] = [].
Proof.
  destruct (handleNext_logs_in (lit "Ann") (lit "ann@example.com") [])
    as [H _].
  destruct (H eq_refl) as (H1 & _ & _ & _ & H5).
  destruct (handleNext_logs_in (lit "Ann 2") (lit "ann@example.com") [])
    as [_ H'].
  split; [exact H1|]. split; [apply H5 | apply H'; reflexivity].
Defined.

End OnboardingFacts.

(* ===================================================================== *)
(** ** Profile *)
(* ===================================================================== *)

Section ProfileFacts.

Import AsyncStorage Profile.
Local Open Scope string_scope.

Lemma keep_or_same (v : text) : keep_or (Some v) [] = v.
Proof. destruct v; reflexivity. Qed.

Lemma handleSave_avatar_kept (f : Form) (s : Storage) :
  truthy (avatar f) = false ->
  getItem "avatar" (snd (handleSave f s)) = getItem "avatar" s.
Proof.
  intros T. unfold handleSave.
  destruct (isEmpty (trim (firstName f)) || isEmpty (trim (email f)));
    [reflexivity|].
  cbv zeta. cbn [snd].
  destruct (avatar f) as [[|c uri]|]; try discriminate;
    rewrite !getItem_setItem_neq by discriminate; reflexivity.
Qed.

(** [handleSave] refuses a blank first name or email and then writes
    nothing.  Otherwise a form loaded afterwards from the store gets back
    the saved name, last name, email and phone; it gets back the saved
    avatar when the form had one, and the avatar stored before when it had
    none. *)
Theorem handleSave_then_load (f : Form) (s : Storage) :
  (blank (firstName f) \/ blank (email f) ->
   handleSave f s = (MissingInformation, s))
  /\ (~ blank (firstName f) -> ~ blank (email f) ->
      let s' := snd (handleSave f s) in
      let f' := loadProfileData s' blank_form in
      fst (handleSave f s) = Success
      /\ firstName f' = firstName f
      /\ lastName f' = lastName f
      /\ email f' = email f
      /\ phone f' = phone f
      /\ (truthy (avatar f) = true -> avatar f' = avatar f)
      /\ (truthy (avatar f) = false -> avatar f' = loadAvatar s None)).
Proof.
  unfold blank. split.
  - intros B. unfold handleSave.
    destruct B as [B|B]; rewrite B; simpl; [|rewrite orb_true_r]; reflexivity.
  - intros B1 B2. cbv zeta.
    pose proof (handleSave_avatar_kept f s) as K.
    unfold handleSave in *.
    destruct (trim (firstName f)); [contradiction|].
    destruct (trim (email f)); [contradiction|].
    cbn [isEmpty orb fst snd] in *. cbv zeta in *.
    unfold loadProfileData, blank_form.
    cbn [avatar firstName lastName email phone].
    split; [reflexivity|].
    repeat split.
    + destruct (avatar f) as [[|c uri]|];
        rewrite ?getItem_setItem_neq by discriminate;
        rewrite getItem_setItem_eq; apply keep_or_same.
    + destruct (avatar f) as [[|c uri]|];
        rewrite ?getItem_setItem_neq by discriminate;
        rewrite getItem_setItem_eq; apply keep_or_same.
    + destruct (avatar f) as [[|c uri]|];
        rewrite ?getItem_setItem_neq by discriminate;
        rewrite getItem_setItem_eq; apply keep_or_same.
    + destruct (avatar f) as [[|c uri]|];
        rewrite ?getItem_setItem_neq by discriminate;
        rewrite getItem_setItem_eq; apply keep_or_same.
    + intros T. destruct (avatar f) as [[|c uri]|]; try discriminate.
      rewrite getItem_setItem_eq. reflexivity.
    + intros T. rewrite (K T). unfold loadAvatar. reflexivity.
Qed.

Lemma handleSave_then_load_witness :
  let f := {| avatar := Some (lit "file:///a.png"); firstName := lit "Ann";
              lastName := []; email := lit "ann@example.com";
              phone := lit "(555) 010-2030" |} in
  loadProfileData (snd (handleSave f [])) blank_form = f
  /\ handleSave blank_form [] = (MissingInformation, []).
Proof.
  set (f := {| avatar := Some (lit "file:///a.png"); firstName := lit "Ann";
               lastName := []; email := lit "ann@example.com";
               phone := lit "(555) 010-2030" |}).
  destruct (handleSave_then_load f []) as [_ H].
  destruct (handleSave_then_load blank_form []) as [H' _].
  split; [|apply H'; left; reflexivity].
  destruct H as (_ & H1 & H2 & H3 & H4 & H5 & _);
    [discriminate | discriminate |].
  specialize (H5 eq_refl).
  destruct (loadProfileData (snd (handleSave f [])) blank_form).
  simpl in *. subst. reflexivity.
Defined.

(** Choosing a picture is stored at once; removing the picture is never
    stored: after Remove and Save the store still holds the old picture,
    and the header of the menu and a reloaded form show it again. *)
Theorem removed_avatar_comes_back (f : Form) (s : Storage) (uri : text)
    (picked : PickerResult) :
  uri <> [] ->
  canceled picked = false ->
  (exists more, assets picked = Some (uri :: more)) ->
  let (f1, s1) := handleChangeAvatar true picked f s in
  let f2 := handleRemoveAvatar f1 in
  let s2 := snd (handleSave f2 s1) in
  avatar f1 = Some uri
  /\ getItem "avatar" s1 = Some uri
  /\ avatar f2 = None
  /\ getItem "avatar" s2 = Some uri
  /\ loadAvatar s2 None = Some uri
  /\ avatar (loadProfileData s2 blank_form) = Some uri.
Proof.
  intros N C (more & A). unfold handleChangeAvatar. rewrite C, A.
  cbv zeta.
  assert (G : getItem "avatar" (setItem "avatar" uri s) = Some uri)
    by apply getItem_setItem_eq.
  assert (K : getItem "avatar"
                (snd (handleSave (handleRemoveAvatar (with_avatar (Some uri) f))
                        (setItem "avatar" uri s)))
              = Some uri).
  { rewrite handleSave_avatar_kept by reflexivity. exact G. }
  assert (T : truthy (Some uri) = true) by (destruct uri; [congruence | reflexivity]).
  repeat split; try assumption.
  - unfold loadAvatar. rewrite K, T. reflexivity.
  - unfold loadProfileData. cbn [avatar]. rewrite K, T. reflexivity.
Qed.

Lemma removed_avatar_comes_back_witness :
  let picked := {| canceled := false;
                   assets := Some [lit "file:///a.png"] |} in
  let (f1, s1) := handleChangeAvatar true picked blank_form [] in
  let f2 := handleRemoveAvatar f1 in
  let s2 := snd (handleSave f2 s1) in
  avatar f1 = Some (lit "file:///a.png")
  /\ getItem "avatar" s1 = Some (lit "file:///a.png")
  /\ avatar f2 = None
  /\ getItem "avatar" s2 = Some (lit "file:///a.png")
  /\ loadAvatar s2 None = Some (lit "file:///a.png")
  /\ avatar (loadProfileData s2 blank_form) = Some (lit "file:///a.png").
Proof.
  apply (removed_avatar_comes_back blank_form [] (lit "file:///a.png")
           {| canceled := false; assets := Some [lit "file:///a.png"] |}).
  - discriminate.
  - reflexivity.
  - exists []. reflexivity.
Defined.

(** Discard empties the form and removes the five profile keys, and only
    those: every other key, the login flag among them, keeps its value, so
    the user stays logged in. *)
Theorem handleDiscard_keeps_login (f : Form) (s : Storage) :
  let (f', s') := handleDiscard f s in
  f' = blank_form
  /\ (forall k, In k profile_keys -> getItem k s' = None)
  /\ (forall k, ~ In k profile_keys -> getItem k s' = getItem k s)
  /\ (forall l, App.poll s' l = App.poll s l).
Proof.
  unfold handleDiscard, profile_keys.
  assert (O : forall k, ~ In k ["firstName"; "lastName"; "email"; "phone";
                                "avatar"] ->
              getItem k
                (removeItem "avatar"
                   (removeItem "phone"
                      (removeItem "email"
                         (removeItem "lastName" (removeItem "firstName" s)))))
              = getItem k s).
  { intros k N. simpl in N.
    rewrite !getItem_removeItem_neq; [reflexivity | | | | |];
      intros E; apply N; subst; tauto. }
  split; [reflexivity|]. split; [|split].
  - intros k Hk. simpl in Hk.
    destruct Hk as [<-|[<-|[<-|[<-|[<-|[]]]]]];
      rewrite ?getItem_removeItem_neq by discriminate;
      apply getItem_removeItem_eq.
  - exact O.
  - intros l. unfold App.poll. rewrite O; [reflexivity|].
    simpl. intros [E|[E|[E|[E|[E|[]]]]]]; discriminate.
Qed.

(** A session from first launch to logout: the splash screen until the
    first poll, onboarding until valid details are entered, the logged-in
    screens from the next poll on, onboarding again after logout. *)
Theorem login_then_logout (firstName email : text) (s : Storage) :
  Onboarding.isFirstNameValid firstName = true ->
  Onboarding.isEmailValid email = true ->
  getItem "isLoggedIn" s = None ->
  let l0 := App.useAsyncStorageListener false in
  let l1 := App.poll s l0 in
  let s1 := Onboarding.handleNext firstName email s in
  let l2 := App.poll s1 l1 in
  let s2 := handleLogout s1 in
  let l3 := App.poll s2 l2 in
  App.App l0 = App.SplashScreen
  /\ App.App l1 = App.LoggedOut
  /\ App.App l2 = App.LoggedIn
  /\ App.App l3 = App.LoggedOut.
Proof.
  intros V1 V2 H. cbv zeta.
  unfold Onboarding.handleNext. rewrite V1, V2. cbn [andb].
  unfold App.poll, App.loadValue, App.App.
  rewrite H, getItem_setItem_eq. repeat split.
Qed.

Lemma login_then_logout_witness :
  let firstName := lit "Ann" in
  let email := lit "ann@example.com" in
  let l0 := App.useAsyncStorageListener false in
  let l1 := App.poll [] l0 in
  let s1 := Onboarding.handleNext firstName email [] in
  let l2 := App.poll s1 l1 in
  let s2 := handleLogout s1 in
  let l3 := App.poll s2 l2 in
  App.App l0 = App.SplashScreen
  /\ App.App l1 = App.LoggedOut
  /\ App.App l2 = App.LoggedIn
  /\ App.App l3 = App.LoggedOut.
Proof.
  apply (login_then_logout (lit "Ann") (lit "ann@example.com") []);
    reflexivity.
Defined.

End ProfileFacts.
